(** * agentmap: diff-text parsing and definition-level diff classification

    A shallow embedding of [cli/src/extract/git-status.ts]:
    [normalizePath], [parseNumstat], [parseHunkHeader], [parseDiff],
    [calculateDefinitionDiff] and [applyDiffToDefinitions], with the
    properties the specification states about them.

    Conventions of the embedding.
    - A JavaScript string is the list of its UTF-16 code units ([list N]).
    - A JavaScript number that holds an integer is a [Z]; [NaN] is the
      [None] of an [option Z].  The program computes in doubles, which
      are exact on the integers up to 2^53: a statement that depends on
      exact values names this range in its hypotheses (see the section
      on the range in which the numbers are exact).
    - A [Map] is a [gmap]: none of the properties below depends on the
      iteration order of a [Map].
    - [null]/[undefined] are [None]. *)

From Stdlib Require Import ZArith NArith List Ascii String Lia Bool.
From stdpp Require Import base option list gmap fin_maps list_numbers.
Import ListNotations.

Open Scope Z_scope.

(* ===================================================================== *)
(** * Strings *)
(* ===================================================================== *)

Module Js.

(** The code units of an ASCII literal. *)
Definition js (s : string) : list N :=
  List.map N_of_ascii (list_ascii_of_string s).
Global Arguments js s%_string : simpl never.

Definition TAB : N := 9%N.
Definition LF : N := 10%N.
Definition QUOTE : N := 34%N.
Definition PLUS : N := 43%N.
Definition MINUS : N := 45%N.
Definition SLASH : N := 47%N.
Definition BACKSLASH : N := 92%N.

(** ECMAScript [WhiteSpace] and [LineTerminator] code points: what
    [String.prototype.trim] strips and what [parseInt] skips. *)
Definition is_whitespace (c : N) : bool :=
  ((9 <=? c) && (c <=? 13) || (c =? 32) || (c =? 160) || (c =? 5760)
   || (8192 <=? c) && (c <=? 8202) || (c =? 8232) || (c =? 8233)
   || (c =? 8239) || (c =? 8287) || (c =? 12288) || (c =? 65279))%N.

(** [LineTerminator]: what the regular-expression atom [.] refuses. *)
Definition is_line_terminator (c : N) : bool :=
  ((c =? 10) || (c =? 13) || (c =? 8232) || (c =? 8233))%N.

(** The class [\d]. *)
Definition is_digit (c : N) : bool := ((48 <=? c) && (c <=? 57))%N.

(** The class [.] (no [s] flag). *)
Definition is_dot (c : N) : bool := negb (is_line_terminator c).

Fixpoint takeWhile {A} (p : A -> bool) (s : list A) : list A :=
  match s with
  | c :: s' => if p c then c :: takeWhile p s' else []
  | [] => []
  end.

Fixpoint dropWhile {A} (p : A -> bool) (s : list A) : list A :=
  match s with
  | c :: s' => if p c then dropWhile p s' else s
  | [] => []
  end.

Definition trimStart (s : list N) : list N := dropWhile is_whitespace s.
Definition trimEnd (s : list N) : list N :=
  rev (dropWhile is_whitespace (rev s)).
Definition trim (s : list N) : list N := trimEnd (trimStart s).

(** [!s]: the empty string is the only falsy string. *)
Definition is_empty (s : list N) : bool :=
  match s with [] => true | _ => false end.

(** [s.startsWith(p)], and the rest of [s] behind [p]. *)
Fixpoint stripPrefix (p s : list N) : option (list N) :=
  match p, s with
  | [], _ => Some s
  | a :: p', c :: s' => if (a =? c)%N then stripPrefix p' s' else None
  | _ :: _, [] => None
  end.

Definition startsWith (p s : list N) : bool :=
  match stripPrefix p s with Some _ => true | None => false end.

Definition endsWith (p s : list N) : bool := startsWith (rev p) (rev s).

(** [s === t]. *)
Fixpoint str_eqb (s t : list N) : bool :=
  match s, t with
  | [], [] => true
  | a :: s', b :: t' => (a =? b)%N && str_eqb s' t'
  | _, _ => false
  end.

(** [s.split(sep)] for a one-character separator: never an empty array. *)
Fixpoint split (sep : N) (s : list N) : list (list N) :=
  match s with
  | [] => [[]]
  | c :: s' =>
      if (c =? sep)%N then [] :: split sep s'
      else match split sep s' with
           | f :: fs => (c :: f) :: fs
           | [] => [[c]]
           end
  end.

(** [parts.join(sep)]. *)
Fixpoint join (sep : N) (parts : list (list N)) : list N :=
  match parts with
  | [] => []
  | [p] => p
  | p :: ps => p ++ sep :: join sep ps
  end.

(** [s.slice(1, -1)]. *)
Definition slice_1_m1 (s : list N) : list N := removelast (tl s).

(** [s.replace(/ab/g, r)] for a two-character pattern [ab] and a
    one-character replacement: left to right, matches do not overlap. *)
Fixpoint replace2 (a b r : N) (s : list N) : list N :=
  match s with
  | [] => []
  | c :: t =>
      match t with
      | d :: u =>
          if ((c =? a) && (d =? b))%N then r :: replace2 a b r u
          else c :: replace2 a b r t
      | [] => [c]
      end
  end.

(** [s.replace(/a/g, r)] for single characters. *)
Definition replace1 (a r : N) (s : list N) : list N :=
  List.map (fun c => if (c =? a)%N then r else c) s.

(** The value of a run of decimal digits. *)
Definition decimal (ds : list N) : Z :=
  fold_left (fun acc c => 10 * acc + (Z.of_N c - 48)) ds 0.

(** [parseInt(s, 10)]: leading white space is skipped, then an optional
    sign, then the longest run of digits; [NaN] ([None]) when that run is
    empty.  Whatever follows the digits is ignored.  The result is the
    value of the digits, which is the number [parseInt] returns when it
    is at most 2^53 (beyond, [parseInt] returns the nearest double). *)
Definition parseInt (s : list N) : option Z :=
  let s1 := trimStart s in
  let '(sign, s2) :=
    match s1 with
    | c :: r =>
        if (c =? MINUS)%N then (-1, r)
        else if (c =? PLUS)%N then (1, r)
        else (1, s1)
    | [] => (1, s1)
    end in
  match takeWhile is_digit s2 with
  | [] => None
  | ds => Some (sign * decimal ds)
  end.

End Js.
Import Js.

(* ===================================================================== *)
(** * Regular expressions *)
(* ===================================================================== *)

(** The fragment of ECMAScript patterns the program uses, matched the way
    the language defines it: by backtracking, greedy quantifiers first. *)
Module Regex.

Inductive regex : Type :=
| Lit (l : list N)             (** the characters of [l], in order *)
| Plus (cls : N -> bool)       (** [c+] for a character class, greedy *)
| Seq (r1 r2 : regex)
| Opt (r : regex)              (** [(?:r)?], greedy *)
| Group (i : nat) (r : regex). (** capture group number [i] *)

(** [m i] is the text of group [i], [None] when the group took no part. *)
Definition captures : Type := nat -> option (list N).

Definition no_captures : captures := fun _ => None.

Definition set_capture (i : nat) (v : list N) (m : captures) : captures :=
  fun j => if Nat.eqb j i then Some v else m j.

(** The same for a group that may have taken no part. *)
Definition set_opt_capture (i : nat) (o : option (list N)) (m : captures)
    : captures :=
  match o with Some v => set_capture i v m | None => m end.

(** One or more characters of [cls]: the longest run is tried first, then
    each shorter one. *)
Fixpoint plus_loop {A} (cls : N -> bool) (k : list N -> option A)
    (s : list N) : option A :=
  match s with
  | c :: s' =>
      if cls c then
        match plus_loop cls k s' with
        | Some x => Some x
        | None => k s'
        end
      else None
  | [] => None
  end.

(** [rmatch r k s m]: match [r] at the head of [s], then continue with
    [k] on what is left; a failure of [k] sends the matcher back to the
    latest choice. *)
Fixpoint rmatch {A} (r : regex) (k : list N -> captures -> option A)
    (s : list N) (m : captures) : option A :=
  match r with
  | Lit l =>
      match stripPrefix l s with
      | Some s' => k s' m
      | None => None
      end
  | Plus cls => plus_loop cls (fun s' => k s' m) s
  | Seq r1 r2 => rmatch r1 (rmatch r2 k) s m
  | Opt r1 =>
      match rmatch r1 k s m with
      | Some x => Some x
      | None => k s m
      end
  | Group i r1 =>
      rmatch r1
        (fun s' m' =>
           k s' (set_capture i (take (length s - length s') s) m'))
        s m
  end.

Definition match_here (r : regex) (s : list N) : option captures :=
  rmatch r (fun _ m => Some m) s no_captures.

(** [s.match(r)] without the [g] flag: the first position, from the left,
    at which [r] matches. *)
Fixpoint exec (r : regex) (s : list N) : option captures :=
  match match_here r s with
  | Some m => Some m
  | None =>
      match s with
      | _ :: s' => exec r s'
      | [] => None
      end
  end.

End Regex.
Import Regex.

(** A sequence hands its second part to the first as continuation. *)
Ltac open_seq :=
  repeat match goal with
  | |- context [rmatch (Seq ?r1 ?r2) ?k] =>
      change (rmatch (Seq r1 r2) k) with (rmatch r1 (rmatch r2 k))
  | H : context [rmatch (Seq ?r1 ?r2) ?k] |- _ =>
      change (rmatch (Seq r1 r2) k) with (rmatch r1 (rmatch r2 k)) in H
  end.

(* ===================================================================== *)
(** * The program *)
(* ===================================================================== *)

(** ** Types ([types.ts]) *)

Record DiffHunk : Type := mkHunk {
  oldStart : Z;
  oldCount : Z;
  newStart : Z;
  newCount : Z;
}.

Record FileDiff : Type := mkFileDiff {
  path : list N;
  hunks : list DiffHunk;
}.

Record FileDiffStats : Type := mkStats {
  added : Z;
  deleted : Z;
}.

Inductive DiffStatus : Type := StatusAdded | StatusUpdated.

Record DefinitionDiff : Type := mkDefDiff {
  status : DiffStatus;
  dd_added : Z;
  dd_deleted : Z;
}.

(** ** [normalizePath] *)

Definition normalizePath (p : list N) : list N :=
  let p1 :=
    if startsWith [QUOTE] p && endsWith [QUOTE] p then
      replace2 BACKSLASH BACKSLASH BACKSLASH
        (replace2 BACKSLASH QUOTE QUOTE (slice_1_m1 p))
    else p in
  replace1 BACKSLASH SLASH p1.

(** ** [parseHunkHeader] *)

(** [/@@ -(\d+)(?:,(\d+))? \+(\d+)(?:,(\d+))? @@/] *)
Definition hunk_re : regex :=
  Seq (Lit (js "@@ -"))
 (Seq (Group 1 (Plus is_digit))
 (Seq (Opt (Seq (Lit (js ",")) (Group 2 (Plus is_digit))))
 (Seq (Lit (js " +"))
 (Seq (Group 3 (Plus is_digit))
 (Seq (Opt (Seq (Lit (js ",")) (Group 4 (Plus is_digit))))
      (Lit (js " @@"))))))).

(** [g ? parseInt(g, 10) : 1] for an optional capture [g]. *)
Definition count_or_one (g : option (list N)) : option Z :=
  match g with
  | Some ((_ :: _) as ds) => parseInt ds
  | _ => Some 1
  end.

(** The fields are the [parseInt] of the captures.  The binds on
    [parseInt] never fail: a capture of [\d+] is a non-empty run of digits
    (lemma [parseHunkHeader_None] below), so [None] is returned exactly
    when the pattern does not match. *)
Definition parseHunkHeader (line : list N) : option DiffHunk :=
  match exec hunk_re line with
  | None => None
  | Some m =>
      os ← m 1%nat ≫= parseInt;
      oc ← count_or_one (m 2%nat);
      ns ← m 3%nat ≫= parseInt;
      nc ← count_or_one (m 4%nat);
      Some {| oldStart := os; oldCount := oc; newStart := ns; newCount := nc |}
  end.

(** ** [parseNumstat] *)

(** The body of the loop over the lines, each [continue] leaving the
    mapping as it was. *)
Definition numstat_line (stats : gmap (list N) FileDiffStats)
    (line : list N) : gmap (list N) FileDiffStats :=
  if is_empty (trim line) then stats else
  let parts := split TAB line in
  if (length parts <? 3)%nat then stats else
  match parts with
  | addedStr :: deletedStr :: pathParts =>
      let p := normalizePath (join TAB pathParts) in
      if str_eqb addedStr [MINUS] || str_eqb deletedStr [MINUS] then stats
      else
        match parseInt addedStr, parseInt deletedStr with
        | Some a, Some d =>
            if (a =? 0) && (d =? 0) then stats
            else <[p := {| added := a; deleted := d |}]> stats
        | _, _ => stats
        end
  | _ => stats
  end.

Definition parseNumstat (numstatOutput : list N)
    : gmap (list N) FileDiffStats :=
  if is_empty (trim numstatOutput) then ∅
  else fold_left numstat_line (split LF numstatOutput) ∅.

(** ** [parseDiff] *)

(** [/diff --git a\/.+ b\/(.+)/] *)
Definition header_re : regex :=
  Seq (Lit (js "diff --git a/"))
 (Seq (Plus is_dot)
 (Seq (Lit (js " b/"))
      (Group 1 (Plus is_dot)))).

(** The loop state: the result so far, [currentFile] and [hunks]. *)
Record diff_state : Type := mkDiffState {
  files : gmap (list N) FileDiff;
  currentFile : option (list N);
  cur_hunks : list DiffHunk;
}.

(** [currentFile && ...]: [null] and the empty string are falsy. *)
Definition truthy (f : option (list N)) : bool :=
  match f with
  | Some (_ :: _) => true
  | _ => false
  end.

(** "Save previous file": the [files.set] under its guard. *)
Definition save_file (st : diff_state) : gmap (list N) FileDiff :=
  match currentFile st with
  | Some f =>
      if truthy (Some f) && (0 <? length (cur_hunks st))%nat
      then <[f := {| path := f; hunks := cur_hunks st |}]> (files st)
      else files st
  | None => files st
  end.

(** The new [currentFile] a file header line gives. *)
Definition header_path (line : list N) : option (list N) :=
  match exec header_re line with
  | Some m => normalizePath <$> m 1%nat
  | None => None
  end.

(** The body of the loop over the lines. *)
Definition diff_line (st : diff_state) (line : list N) : diff_state :=
  if startsWith (js "diff --git ") line then
    {| files := save_file st;
       currentFile := header_path line;
       cur_hunks := [] |}
  else if startsWith (js "Binary files ") line then
    {| files := files st; currentFile := None; cur_hunks := [] |}
  else if startsWith (js "@@") line && truthy (currentFile st) then
    match parseHunkHeader line with
    | Some hunk =>
        {| files := files st;
           currentFile := currentFile st;
           cur_hunks := cur_hunks st ++ [hunk] |}
    | None => st
    end
  else st.

Definition diff_init : diff_state :=
  {| files := ∅; currentFile := None; cur_hunks := [] |}.

Definition parseDiff (diffOutput : list N) : gmap (list N) FileDiff :=
  if is_empty (trim diffOutput) then ∅
  else save_file (fold_left diff_line (split LF diffOutput) diff_init).

(** ** [calculateDefinitionDiff] *)

(** Modelled from the spec: the declaration of [Definition] in the
    [types.ts] that [git-status.ts] imports is not among the sources; the
    fields are those the specification lists, [{name, line, endLine, type,
    exported}], and the optional [diff] attribute.  The program reads
    [line] and [endLine] and writes [diff]. *)
Record Definition_ : Type := mkDef {
  name : list N;
  line : Z;
  endLine : Z;
  type_ : list N;
  exported : bool;
  diff : option DefinitionDiff;
}.

(** The two running totals, [addedInDef] and [deletedInDef]. *)
Definition totals : Type := (Z * Z)%type.

(** The body of the loop over the hunks, in exact arithmetic: the
    arithmetic of the program as long as no intermediate value exceeds
    2^53 (see [safe_lines] and [safe_hunks] below). *)
Definition hunk_step (defStart defEnd : Z) (acc : totals) (hunk : DiffHunk)
    : totals :=
  let '(addedInDef, deletedInDef) := acc in
  let hunkNewStart := newStart hunk in
  let hunkNewEnd := newStart hunk + newCount hunk - 1 in
  let overlapStart := Z.max defStart hunkNewStart in
  let overlapEnd := Z.min defEnd hunkNewEnd in
  let addedInDef :=
    if overlapStart <=? overlapEnd
    then addedInDef + (overlapEnd - overlapStart + 1)
    else addedInDef in
  let deletedInDef :=
    if 0 <? oldCount hunk then
      if (hunkNewStart <=? defEnd) && (defStart <=? hunkNewEnd)
      then deletedInDef + oldCount hunk
      else deletedInDef
    else deletedInDef in
  (addedInDef, deletedInDef).

(** The totals when the loop is over. *)
Definition def_totals (def : Definition_) (hs : list DiffHunk) : totals :=
  fold_left (hunk_step (line def) (endLine def)) hs (0, 0).

Definition calculateDefinitionDiff (def : Definition_) (hs : list DiffHunk)
    : option DefinitionDiff :=
  let defLineCount := endLine def - line def + 1 in
  let '(addedInDef, deletedInDef) := def_totals def hs in
  if (addedInDef =? 0) && (deletedInDef =? 0) then None
  else
    let st :=
      if (defLineCount <=? addedInDef) && (deletedInDef =? 0)
      then StatusAdded else StatusUpdated in
    Some {| status := st; dd_added := addedInDef; dd_deleted := deletedInDef |}.

(** ** [applyDiffToDefinitions] *)

(** [{ ...def, diff }] *)
Definition with_diff (def : Definition_) (d : DefinitionDiff) : Definition_ :=
  {| name := name def; line := line def; endLine := endLine def;
     type_ := type_ def; exported := exported def; diff := Some d |}.

Definition applyDiffToDefinitions (definitions : list Definition_)
    (fileDiff : option FileDiff) : list Definition_ :=
  match fileDiff with
  | None => definitions
  | Some fd =>
      if (length (hunks fd) =? 0)%nat then definitions
      else
        List.map
          (fun def =>
             match calculateDefinitionDiff def (hunks fd) with
             | Some d => with_diff def d
             | None => def
             end)
          definitions
  end.

(** Texts of several lines or fields, for the examples. *)
Definition line_sep (ls : list (list N)) : list N := join LF ls.
Definition tab_sep (fs : list (list N)) : list N := join TAB fs.


(* ===================================================================== *)
(** * The specification's notions *)
(* ===================================================================== *)

(** ** Hunk headers (specification 4.3) *)

(** A non-empty run of decimal digits. *)
Definition is_number (a : list N) : Prop :=
  a ≠ [] ∧ forallb is_digit a = true.

Definition opt_number (o : option (list N)) : Prop :=
  match o with Some b => is_number b | None => True end.

(** The optional [,<count>]. *)
Definition count_suffix (o : option (list N)) : list N :=
  match o with Some b => js "," ++ b | None => [] end.

(** [@@ -<oldStart>[,<oldCount>] +<newStart>[,<newCount>] @@] *)
Definition hunk_header_text (a : list N) (ob : option (list N))
    (c : list N) (od : option (list N)) : list N :=
  js "@@ -" ++ a ++ count_suffix ob ++ js " +" ++ c ++ count_suffix od
  ++ js " @@".

(** The groups of the pattern on such a header. *)
Definition hunk_captures (a : list N) (ob : option (list N))
    (c : list N) (od : option (list N)) : captures :=
  set_opt_capture 4 od
    (set_capture 3 c (set_opt_capture 2 ob (set_capture 1 a no_captures))).

(** An omitted count is 1. *)
Definition count_value (o : option (list N)) : Z :=
  match o with Some b => decimal b | None => 1 end.

Definition header_hunk (a : list N) (ob : option (list N))
    (c : list N) (od : option (list N)) : DiffHunk :=
  {| oldStart := decimal a; oldCount := count_value ob;
     newStart := decimal c; newCount := count_value od |}.

(** The line is a hunk header followed by any text: the grammar, read
    from the first character of the line. *)
Definition hunk_header_line (l : list N) : Prop :=
  ∃ a ob c od rest,
    is_number a ∧ opt_number ob ∧ is_number c ∧ opt_number od ∧
    l = hunk_header_text a ob c od ++ rest.

(** The line has a hunk header somewhere in it. *)
Definition contains_hunk_header (l : list N) : Prop :=
  ∃ pre tail, l = pre ++ tail ∧ hunk_header_line tail.

(** ** Numstat rows (specification 4.2) *)

(** [row] is a valid row for the path [p] with the counts [v]: at least
    three tab-delimited fields, neither count field the literal [-], both
    counts parse, not both are zero, and [p] is the normalized path
    rejoined from the fields behind the counts. *)
Definition valid_row (row : list N) (p : list N) (v : FileDiffStats) : Prop :=
  ∃ a d rest,
    split TAB row = a :: d :: rest ∧ rest ≠ [] ∧
    a ≠ [MINUS] ∧ d ≠ [MINUS] ∧
    parseInt a = Some (added v) ∧ parseInt d = Some (deleted v) ∧
    ¬ (added v = 0 ∧ deleted v = 0) ∧
    p = normalizePath (join TAB rest).

(** The same, computed. *)
Definition row_entry (row : list N) : option (list N * FileDiffStats) :=
  match split TAB row with
  | a :: d :: ((_ :: _) as rest) =>
      if str_eqb a [MINUS] || str_eqb d [MINUS] then None
      else
        match parseInt a, parseInt d with
        | Some x, Some y =>
            if (x =? 0) && (y =? 0) then None
            else Some (normalizePath (join TAB rest),
                       {| added := x; deleted := y |})
        | _, _ => None
        end
  | _ => None
  end.

(** The two count fields of a row. *)
Definition count_fields (row : list N) : list (list N) :=
  take 2 (split TAB row).

(** ** File sections of a unified diff (specification 4.4) *)

Definition is_file_header (l : list N) : bool :=
  startsWith (js "diff --git ") l.

Definition is_binary_marker (l : list N) : bool :=
  startsWith (js "Binary files ") l.

Definition is_hunk_line (l : list N) : bool := startsWith (js "@@") l.

(** The lines up to the next file header. *)
Definition body_prefix (ls : list (list N)) : list (list N) :=
  takeWhile (fun l => negb (is_file_header l)) ls.

(** A file section: a file header line and the lines that follow it up to
    the next file header.  [sections] lists them in the order of the
    text. *)
Fixpoint sections (ls : list (list N)) : list (list N * list (list N)) :=
  match ls with
  | [] => []
  | l :: rest =>
      if is_file_header l then (l, body_prefix rest) :: sections rest
      else sections rest
  end.

(** The hunks parsed from the hunk lines of a section, in source order. *)
Definition section_hunks (body : list (list N)) : list DiffHunk :=
  omap parseHunkHeader (List.filter is_hunk_line body).

(** What a section commits: its normalized destination path and its
    hunks, when the path is a non-empty string, no binary marker stands in
    the section and at least one hunk was parsed. *)
Definition section_entry (s : list N * list (list N))
    : option (list N * FileDiff) :=
  match header_path (fst s) with
  | Some p =>
      if truthy (Some p) && negb (existsb is_binary_marker (snd s)) then
        match section_hunks (snd s) with
        | [] => None
        | hs => Some (p, {| path := p; hunks := hs |})
        end
      else None
  | None => None
  end.

(** Entries written to a mapping one after the other. *)
Definition put_entry {V} (m : gmap (list N) V) (e : option (list N * V))
    : gmap (list N) V :=
  match e with
  | Some (k, v) => <[k := v]> m
  | None => m
  end.

(** ** Line arithmetic of the classifier (specification 4.5) *)

(** The lines [line .. endLine] of a definition. *)
Definition def_lines (def : Definition_) : list Z :=
  seqZ (line def) (endLine def - line def + 1).

(** [l] lies in the hunk's span [newStart .. newStart+newCount-1]. *)
Definition in_new_span (h : DiffHunk) (l : Z) : bool :=
  (newStart h <=? l) && (l <=? newStart h + newCount h - 1).

(** The length of the intersection of the two spans: how many lines of
    the definition lie in the hunk's new span. *)
Definition intersection_length (def : Definition_) (h : DiffHunk) : Z :=
  Z.of_nat (length (List.filter (in_new_span h) (def_lines def))).

(** The touch test. *)
Definition touches (def : Definition_) (h : DiffHunk) : bool :=
  (newStart h <=? endLine def) && (line def <=? newStart h + newCount h - 1).

Definition sumZ (l : list Z) : Z := foldr Z.add 0 l.

Definition added_sum (def : Definition_) (hs : list DiffHunk) : Z :=
  sumZ (intersection_length def <$> hs).

Definition deleted_sum (def : Definition_) (hs : list DiffHunk) : Z :=
  sumZ (oldCount <$>
        List.filter (fun h => (0 <? oldCount h) && touches def h) hs).

(** The fields of a definition other than its [diff]. *)
Definition same_fields (d1 d2 : Definition_) : Prop :=
  name d1 = name d2 ∧ line d1 = line d2 ∧ endLine d1 = endLine d2 ∧
  type_ d1 = type_ d2 ∧ exported d1 = exported d2.

(** ** Inputs of the examples *)

(** The definitions of the classifier's tests: [makeDef(line, endLine)]. *)
Definition makeDef (l e : Z) : Definition_ :=
  {| name := js "test"; line := l; endLine := e; type_ := js "function";
     exported := false; diff := None |}.

(** Two file sections for the same path, a hunk in each. *)
Definition diff_same_path_twice : list N :=
  line_sep [js "diff --git a/x b/x"; js "@@ -1 +1 @@";
            js "diff --git a/x b/x"; js "@@ -2 +2 @@"].

(** Two file sections for two paths (test "parses multiple files"). *)
Definition diff_two_files : list N :=
  line_sep [js "diff --git a/src/a.ts b/src/a.ts";
            js "index abc..def 100644";
            js "--- a/src/a.ts";
            js "+++ b/src/a.ts";
            js "@@ -1,1 +1,2 @@";
            js "+added line";
            js "diff --git a/src/b.ts b/src/b.ts";
            js "index 123..456 100644";
            js "--- a/src/b.ts";
            js "+++ b/src/b.ts";
            js "@@ -10,2 +10,1 @@";
            js "-removed line";
            js ""].

(** A file section whose destination path is a lone double quote: it
    normalizes to the empty string. *)
Definition diff_empty_path : list N :=
  line_sep [js "diff --git a/x b/" ++ [QUOTE]; js "@@ -1 +1 @@"].

(** A numstat row with a signed count. *)
Definition numstat_signed : list N := tab_sep [js "-5"; js "3"; js "f"].

(** Two numstat rows for the same path. *)
Definition numstat_same_path_twice : list N :=
  line_sep [tab_sep [js "1"; js "2"; js "f"]; tab_sep [js "3"; js "4"; js "f"]].

(* ===================================================================== *)
(** * The rest of [git-status.ts] *)
(* ===================================================================== *)

(** ** [calculateFileDiff] *)

(** The body of the loop over the hunks. *)
Definition file_step (acc : totals) (hunk : DiffHunk) : totals :=
  let '(added, deleted) := acc in
  (added + newCount hunk, deleted + oldCount hunk).

Definition calculateFileDiff (hs : list DiffHunk) : option FileDiffStats :=
  if (length hs =? 0)%nat then None
  else
    let '(added, deleted) := fold_left file_step hs (0, 0) in
    if (added =? 0) && (deleted =? 0) then None
    else Some {| added := added; deleted := deleted |}.

(** ** The git boundary *)

(** [GIT_DIFF_OPTIONS] *)
Definition GIT_DIFF_OPTIONS : list N :=
  join 32%N [js "--no-color"; js "--no-ext-diff"; js "--no-textconv";
             js "--no-renames"].

(** What [getAllDiffData] returns. *)
Record AllDiffData : Type := mkAllDiffData {
  fileStats : gmap (list N) FileDiffStats;
  fileDiffs : gmap (list N) FileDiff;
}.

Section Git.

(** The subprocess: [execSync cmd dir] is the text the command prints
    ([inl]), or the message of the error it throws ([inr]).  A function
    that writes to [console.error] returns the lines it writes beside its
    result. *)
Variable execSync : list N → list N → list N + list N.

Definition safeExec (cmd dir : list N) : list N * list (list N) :=
  match execSync cmd dir with
  | inl out => (out, [])
  | inr message => ([], [js "Warning: git diff failed: " ++ message])
  end.

Definition getFileStats (dir : list N)
    : gmap (list N) FileDiffStats * list (list N) :=
  let cmd := js "git diff " ++ GIT_DIFF_OPTIONS ++ js " --numstat HEAD" in
  let '(output, log) := safeExec cmd dir in
  (parseNumstat output, log).

Definition getHunkDiff (dir : list N)
    : gmap (list N) FileDiff * list (list N) :=
  let cmd := js "git diff " ++ GIT_DIFF_OPTIONS ++ js " --unified=0 HEAD" in
  let '(output, log) := safeExec cmd dir in
  (parseDiff output, log).

(** Neither call throws, so neither [catch] of the source is entered. *)
Definition getAllDiffData (dir : list N) : AllDiffData * list (list N) :=
  let '(stats, log1) := getFileStats dir in
  let '(diffs, log2) := getHunkDiff dir in
  ({| fileStats := stats; fileDiffs := diffs |}, log1 ++ log2).

End Git.

(** ** Further notions *)

(** The new spans of the hunks are pairwise disjoint, as those of the
    hunks of one file in a unified diff are. *)
Definition spans_disjoint (hs : list DiffHunk) : Prop :=
  ∀ (i j : nat) h1 h2 l,
    hs !! i = Some h1 → hs !! j = Some h2 →
    in_new_span h1 l = true → in_new_span h2 l = true → i = j.

(** A line [parseDiff] does not look at: no file header, no binary
    marker, no hunk line. *)
Definition is_content_line (l : list N) : bool :=
  negb (is_file_header l) && negb (is_binary_marker l)
  && negb (is_hunk_line l).

(** The commands of the two calls. *)
Definition numstat_cmd : list N :=
  js "git diff --no-color --no-ext-diff --no-textconv --no-renames --numstat HEAD".
Definition unified_cmd : list N :=
  js "git diff --no-color --no-ext-diff --no-textconv --no-renames --unified=0 HEAD".

(** A subprocess that always fails with the message [msg]. *)
Definition failing_git (msg : list N) (cmd dir : list N) : list N + list N :=
  inr msg.

(** ** The range in which the numbers are exact *)

(** The numbers of the program are IEEE doubles.  Every integer of
    magnitude at most 2^53 is a double, and a sum or difference of
    doubles whose exact value is such an integer is computed exactly; so
    is [parseInt] of a run of digits that denotes one.  The predicates
    below say of an input that every number the program reads and every
    number it computes from it stays in this range: there the integers of
    the embedding are the numbers of the program.  Beyond it the program
    rounds, and a statement about exact values carries these predicates
    as hypotheses. *)

(** [Number.MAX_SAFE_INTEGER], 2^53 - 1. *)
Definition MAX_SAFE_INTEGER : Z := 9007199254740991.

(** The digits denote a number of at most [MAX_SAFE_INTEGER]. *)
Definition safe_number (a : list N) : Prop := decimal a ≤ MAX_SAFE_INTEGER.

Definition safe_opt_number (o : option (list N)) : Prop :=
  match o with Some b => safe_number b | None => True end.

(** The fields of a parsed hunk are at most [MAX_SAFE_INTEGER]. *)
Definition safe_fields (h : DiffHunk) : Prop :=
  oldStart h ≤ MAX_SAFE_INTEGER ∧ oldCount h ≤ MAX_SAFE_INTEGER ∧
  newStart h ≤ MAX_SAFE_INTEGER ∧ newCount h ≤ MAX_SAFE_INTEGER.

(** The counts are at most [MAX_SAFE_INTEGER] in magnitude. *)
Definition safe_stats (v : FileDiffStats) : Prop :=
  - MAX_SAFE_INTEGER ≤ added v ≤ MAX_SAFE_INTEGER ∧
  - MAX_SAFE_INTEGER ≤ deleted v ≤ MAX_SAFE_INTEGER.

(** The lines of a definition: [defEnd - defStart + 1] is exact. *)
Definition safe_lines (def : Definition_) : Prop :=
  0 ≤ line def ≤ MAX_SAFE_INTEGER ∧ 0 ≤ endLine def ≤ MAX_SAFE_INTEGER.

(** A hunk of the classifier's loop: [newStart + newCount - 1] is exact. *)
Definition safe_hunk (h : DiffHunk) : Prop :=
  0 ≤ oldCount h ∧ 0 ≤ newStart h ∧ 0 ≤ newCount h ∧
  newStart h + newCount h ≤ MAX_SAFE_INTEGER.

(** A hunk list of the classifier's loop: each hunk is, and the file's
    totals, which bound the two running totals, are at most
    [MAX_SAFE_INTEGER]. *)
Definition safe_hunks (hs : list DiffHunk) : Prop :=
  Forall safe_hunk hs ∧
  sumZ (newCount <$> hs) ≤ MAX_SAFE_INTEGER ∧
  sumZ (oldCount <$> hs) ≤ MAX_SAFE_INTEGER.

(** The predicates above on the inputs of the examples. *)
Ltac solve_safe :=
  unfold safe_lines, safe_hunks, safe_hunk, safe_fields, safe_stats,
    safe_number, safe_opt_number, MAX_SAFE_INTEGER;
  repeat match goal with
         | |- _ ∧ _ => split
         | |- Forall _ _ => constructor
         | |- True => exact I
         end;
  try (vm_compute; intros ?; discriminate).

(** ** Count fields and quoted paths *)

(** The guard of [normalizePath]: the path is wrapped in double quotes. *)
Definition is_quoted (p : list N) : bool :=
  startsWith [QUOTE] p && endsWith [QUOTE] p.

(** The text of a base-10 integer: an optional sign, then digits and
    nothing else. *)
Definition is_integer_text (f : list N) : bool :=
  let digits s := negb (is_empty s) && forallb is_digit s in
  match f with
  | c :: ds => if (c =? MINUS)%N || (c =? PLUS)%N then digits ds else digits f
  | [] => false
  end.

(** The field starts, after white space and an optional sign, with a
    digit: what [parseInt] asks of it. *)
Definition starts_with_number (f : list N) : Prop :=
  ∃ ws sg ds rest,
    f = ws ++ sg ++ ds ++ rest ∧ forallb is_whitespace ws = true ∧
    (sg = [] ∨ sg = [PLUS] ∨ sg = [MINUS]) ∧ is_number ds.

(** ** Further inputs of the examples *)

(** A numstat row whose count fields are no integers. *)
Definition numstat_not_integers : list N :=
  tab_sep [js "12abc"; js "1.5"; js "f"].

(** The specification's example with a binary row. *)
Definition numstat_with_binary : list N :=
  line_sep [tab_sep [js "-"; js "-"; js "image.png"];
            tab_sep [js "10"; js "5"; js "src/code.ts"]].

(** Two file sections for the same path, a hunk in each, and a binary
    marker behind the hunk of the later one. *)
Definition diff_later_binary : list N :=
  line_sep [js "diff --git a/x b/x"; js "@@ -1 +1 @@";
            js "diff --git a/x b/x"; js "@@ -2 +2 @@";
            js "Binary files a/x and b/x differ"].

(** Two file sections whose destination path is a pair of quotes with
    nothing between them, a hunk in each. *)
Definition diff_empty_path_twice : list N :=
  line_sep [js "diff --git a/x b/" ++ [QUOTE; QUOTE]; js "@@ -1 +1 @@";
            js "diff --git a/x b/" ++ [QUOTE; QUOTE]; js "@@ -2 +2 @@"].

(* ===================================================================== *)
(** * The classifier *)
(* ===================================================================== *)

Section Classifier.

Lemma count_in_span (a b lo : Z) (n : nat) :
  Z.of_nat (length (List.filter (fun l => (a <=? l) && (l <=? b))
                      (seqZ lo (Z.of_nat n))))
  = Z.max 0 (Z.min (lo + Z.of_nat n - 1) b - Z.max lo a + 1).
Proof.
  revert lo. induction n as [|n IH]; intros lo.
  - rewrite seqZ_nil by lia. simpl. lia.
  - rewrite seqZ_cons by lia.
    replace (Z.pred (Z.of_nat (S n))) with (Z.of_nat n) by lia.
    simpl List.filter.
    destruct (Z.leb_spec a lo), (Z.leb_spec lo b); simpl;
      rewrite ?Nat2Z.inj_succ, IH; lia.
Qed.

Lemma intersection_length_eq def h :
  intersection_length def h
  = Z.max 0 (Z.min (endLine def) (newStart h + newCount h - 1)
             - Z.max (line def) (newStart h) + 1).
Proof.
  unfold intersection_length, def_lines, in_new_span.
  destruct (Z.le_gt_cases (line def) (endLine def)) as [Hle|Hgt].
  - replace (endLine def - line def + 1)
      with (Z.of_nat (Z.to_nat (endLine def - line def + 1))) by lia.
    rewrite count_in_span. lia.
  - rewrite seqZ_nil by lia. simpl. lia.
Qed.

Lemma hunk_step_sums def h a d :
  hunk_step (line def) (endLine def) (a, d) h
  = (a + intersection_length def h,
     d + if (0 <? oldCount h) && touches def h then oldCount h else 0).
Proof.
  rewrite intersection_length_eq. unfold hunk_step, touches. f_equal.
  - destruct (Z.leb_spec (Z.max (line def) (newStart h))
                (Z.min (endLine def) (newStart h + newCount h - 1))); lia.
  - destruct (0 <? oldCount h); simpl; [|lia].
    destruct (_ && _); lia.
Qed.

Lemma sumZ_cons x l : sumZ (x :: l) = x + sumZ l.
Proof. reflexivity. Qed.

Lemma fold_hunk_step def hs a d :
  fold_left (hunk_step (line def) (endLine def)) hs (a, d)
  = (a + added_sum def hs, d + deleted_sum def hs).
Proof.
  revert a d. induction hs as [|h hs IH]; intros a d.
  - unfold added_sum, deleted_sum. simpl. f_equal; lia.
  - cbn [fold_left]. rewrite hunk_step_sums, IH.
    unfold added_sum, deleted_sum. rewrite fmap_cons, sumZ_cons.
    cbn [List.filter].
    destruct ((0 <? oldCount h) && touches def h);
      rewrite ?fmap_cons, ?sumZ_cons; f_equal; lia.
Qed.

Lemma def_totals_sums def hs :
  def_totals def hs = (added_sum def hs, deleted_sum def hs).
Proof. unfold def_totals. rewrite fold_hunk_step. f_equal. Qed.

End Classifier.

(* ===================================================================== *)
(** * Strings: basic facts *)
(* ===================================================================== *)

Section StringFacts.

Lemma stripPrefix_app p s : stripPrefix p (p ++ s) = Some s.
Proof.
  induction p as [|a p IH]; simpl; [done|]. by rewrite N.eqb_refl.
Qed.

Lemma stripPrefix_Some p s s' : stripPrefix p s = Some s' → s = p ++ s'.
Proof.
  revert s. induction p as [|a p IH]; intros s; simpl.
  - by intros [= ->].
  - destruct s as [|c s]; [done|].
    destruct (N.eqb_spec a c) as [->|]; [|done].
    intros H. by rewrite (IH _ H).
Qed.

Lemma startsWith_app p s : startsWith p (p ++ s) = true.
Proof. unfold startsWith. by rewrite stripPrefix_app. Qed.

Lemma str_eqb_eq s t : str_eqb s t = true ↔ s = t.
Proof.
  revert t. induction s as [|a s IH]; intros [|b t]; simpl; try done.
  rewrite andb_true_iff, N.eqb_eq, IH. split; [by intros [-> ->]|].
  by intros [= -> ->].
Qed.

Lemma str_eqb_neq s t : str_eqb s t = false ↔ s ≠ t.
Proof.
  rewrite <- str_eqb_eq. destruct (str_eqb s t); split; congruence.
Qed.

Lemma dropWhile_nil {A} (p : A → bool) s :
  dropWhile p s = [] ↔ forallb p s = true.
Proof.
  induction s as [|c s IH]; simpl; [done|].
  destruct (p c); simpl; [done|]. split; congruence.
Qed.

Lemma takeWhile_all {A} (p : A → bool) s :
  forallb p s = true → takeWhile p s = s.
Proof.
  induction s as [|c s IH]; simpl; [done|].
  destruct (p c); simpl; [|done]. intros H. by rewrite IH.
Qed.

Lemma takeWhile_app_stop {A} (p : A → bool) a s :
  forallb p a = true →
  match s with c :: _ => p c = false | [] => True end →
  takeWhile p (a ++ s) = a.
Proof.
  intros Ha Hs. induction a as [|c a IH].
  - destruct s as [|x s]; [done|]. simpl. by rewrite Hs.
  - simpl in Ha. apply andb_true_iff in Ha as [Hc Ha].
    simpl. by rewrite Hc, IH.
Qed.

Lemma takeWhile_Forall {A} (p : A → bool) s :
  Forall (λ c, p c = true) (takeWhile p s).
Proof.
  induction s as [|c s IH]; simpl; [constructor|].
  destruct (p c) eqn:E; constructor; done.
Qed.

Lemma forallb_rev {A} (p : A → bool) s :
  forallb p (rev s) = forallb p s.
Proof.
  induction s as [|c s IH]; simpl; [done|].
  rewrite forallb_app, IH. simpl. rewrite andb_true_r. apply andb_comm.
Qed.

(** [!s.trim()] holds exactly for the strings of white space. *)
Lemma trim_empty s :
  is_empty (trim s) = true ↔ forallb is_whitespace s = true.
Proof.
  unfold trim, trimEnd, trimStart. split.
  - intros H.
    assert (rev (dropWhile is_whitespace (rev (dropWhile is_whitespace s)))
            = []) as H1 by (by destruct (rev _)).
    apply (f_equal (@rev N)) in H1. rewrite rev_involutive in H1. simpl in H1.
    apply dropWhile_nil in H1. rewrite forallb_rev in H1.
    destruct (dropWhile is_whitespace s) as [|c t] eqn:E.
    + by apply dropWhile_nil.
    + exfalso. clear H. induction s as [|x s IH]; simpl in E; [done|].
      destruct (is_whitespace x) eqn:Ex; [by apply IH|].
      injection E as -> ->. simpl in H1. by rewrite Ex in H1.
  - intros H. apply dropWhile_nil in H. by rewrite H.
Qed.

Lemma split_cons_inv sep s : ∃ f fs, split sep s = f :: fs.
Proof.
  destruct s as [|c s]; simpl; [by eexists _, _|].
  destruct (c =? sep)%N; [by eexists _, _|].
  destruct (split sep s); by eexists _, _.
Qed.

(** Every field of a split is made of characters of the string. *)
Lemma split_forallb (p : N → bool) sep s :
  forallb p s = true → Forall (λ f, forallb p f = true) (split sep s).
Proof.
  induction s as [|c s IH]; simpl.
  - by repeat constructor.
  - intros [Hc Hs]%andb_true_iff. specialize (IH Hs).
    destruct (c =? sep)%N; [by constructor|].
    destruct (split sep s) as [|f fs]; [by repeat constructor; simpl; rewrite Hc|].
    inversion_clear IH. constructor; [|done]. simpl. by rewrite Hc.
Qed.

Lemma decimal_snoc ds c : decimal (ds ++ [c]) = 10 * decimal ds + (Z.of_N c - 48).
Proof. unfold decimal. by rewrite fold_left_app. Qed.

Lemma decimal_nonneg ds : forallb is_digit ds = true → 0 ≤ decimal ds.
Proof.
  induction ds as [|c ds IH] using rev_ind; [done|].
  rewrite forallb_app, andb_true_iff. simpl. rewrite andb_true_r.
  intros [Hds Hc]. rewrite decimal_snoc. specialize (IH Hds).
  unfold is_digit in Hc. apply andb_true_iff in Hc as [H1 H2].
  apply N.leb_le in H1. lia.
Qed.

Lemma is_digit_not_whitespace c : is_digit c = true → is_whitespace c = false.
Proof.
  unfold is_digit, is_whitespace.
  intros [H1 H2]%andb_true_iff. apply N.leb_le in H1, H2.
  repeat (apply orb_false_iff; split);
    rewrite ?andb_false_iff, ?N.leb_gt, ?N.eqb_neq; lia.
Qed.

(** [parseInt] of a run of digits is its decimal value. *)
Lemma parseInt_number a : is_number a → parseInt a = Some (decimal a).
Proof.
  intros [Hne Ha]. destruct a as [|c a]; [done|].
  pose proof Ha as Hc. simpl in Hc. apply andb_true_iff in Hc as [Hc _].
  unfold parseInt, trimStart. simpl dropWhile.
  rewrite (is_digit_not_whitespace _ Hc).
  assert ((c =? MINUS)%N = false ∧ (c =? PLUS)%N = false) as [-> ->].
  { unfold is_digit in Hc. apply andb_true_iff in Hc as [H1 H2].
    apply N.leb_le in H1, H2. unfold MINUS, PLUS.
    rewrite !N.eqb_neq. lia. }
  rewrite (takeWhile_all _ _ Ha). f_equal. lia.
Qed.

Lemma parseInt_number_nonneg a z : is_number a → parseInt a = Some z → 0 ≤ z.
Proof.
  intros Ha. rewrite (parseInt_number _ Ha). intros [= <-].
  apply decimal_nonneg, Ha.
Qed.

End StringFacts.

(* ===================================================================== *)
(** * Matching *)
(* ===================================================================== *)

Section RegexFacts.

Context {A : Type}.
Implicit Types (k : list N → captures → option A) (m : captures).

Lemma plus_loop_stop cls (k : list N → option A) s :
  (∀ c t, s = c :: t → cls c = false) → plus_loop cls k s = None.
Proof.
  destruct s as [|c t]; simpl; [done|]. intros H. by rewrite (H c t).
Qed.

(** The greedy choice stands when the continuation accepts it. *)
Lemma plus_loop_greedy cls (k : list N → option A) a s x :
  a ≠ [] → forallb cls a = true →
  (∀ c t, s = c :: t → cls c = false) →
  k s = Some x →
  plus_loop cls k (a ++ s) = Some x.
Proof.
  intros Hne Ha Hs Hk. induction a as [|c a IH]; [done|].
  simpl in Ha. apply andb_true_iff in Ha as [Hc Ha].
  simpl. rewrite Hc. destruct a as [|c' a].
  - simpl. by rewrite plus_loop_stop.
  - by rewrite IH.
Qed.

Lemma plus_loop_Some cls (k : list N → option A) s x :
  plus_loop cls k s = Some x →
  ∃ a s', s = a ++ s' ∧ a ≠ [] ∧ forallb cls a = true ∧ k s' = Some x.
Proof.
  induction s as [|c s IH]; simpl; [done|].
  destruct (cls c) eqn:Hc; [|done].
  destruct (plus_loop cls k s) as [y|] eqn:E.
  - intros [= ->]. destruct (IH eq_refl) as (a & s' & -> & _ & Ha & Hk).
    exists (c :: a), s'. simpl. by rewrite Hc, Ha.
  - intros Hk. exists [c], s. simpl. by rewrite Hc.
Qed.

Lemma rmatch_lit_Some l k s m x :
  rmatch (Lit l) k s m = Some x → ∃ s', s = l ++ s' ∧ k s' m = Some x.
Proof.
  simpl. destruct (stripPrefix l s) as [s'|] eqn:E; [|done].
  intros Hk. exists s'. split; [by apply stripPrefix_Some|done].
Qed.

Lemma rmatch_lit_app l k s m : rmatch (Lit l) k (l ++ s) m = k s m.
Proof. simpl. by rewrite stripPrefix_app. Qed.

Lemma taken_prefix (a s : list N) : take (length (a ++ s) - length s) (a ++ s) = a.
Proof.
  rewrite length_app. replace (length a + length s - length s)%nat
    with (length a) by lia.
  apply take_app_length.
Qed.

Lemma rmatch_group_plus_Some i cls k s m x :
  rmatch (Group i (Plus cls)) k s m = Some x →
  ∃ a s', s = a ++ s' ∧ a ≠ [] ∧ forallb cls a = true ∧
          k s' (set_capture i a m) = Some x.
Proof.
  simpl. intros (a & s' & -> & Hne & Ha & Hk)%plus_loop_Some.
  exists a, s'. by rewrite taken_prefix in Hk.
Qed.

Lemma rmatch_group_plus_greedy i cls k a s m x :
  a ≠ [] → forallb cls a = true →
  (∀ c t, s = c :: t → cls c = false) →
  k s (set_capture i a m) = Some x →
  rmatch (Group i (Plus cls)) k (a ++ s) m = Some x.
Proof.
  intros Hne Ha Hs Hk. simpl. apply plus_loop_greedy; try done.
  by rewrite taken_prefix.
Qed.

(** The optional [,<count>] of the hunk pattern. *)
Lemma rmatch_opt_count_Some i k s m x :
  rmatch (Opt (Seq (Lit (js ",")) (Group i (Plus is_digit)))) k s m = Some x →
  ∃ ob s', s = count_suffix ob ++ s' ∧ opt_number ob ∧
           k s' (set_opt_capture i ob m) = Some x.
Proof.
  cbn [rmatch].
  destruct (match stripPrefix (js ",") s with
            | Some s' => _ | None => None end) as [y|] eqn:E.
  - intros [= ->].
    apply (rmatch_lit_Some (js ",") (rmatch (Group i (Plus is_digit)) k))
      in E as (s1 & -> & (b & s' & -> & Hne & Hb & Hk)%rmatch_group_plus_Some).
    exists (Some b), s'. simpl. done.
  - intros Hk. by exists None, s.
Qed.

Lemma rmatch_opt_count_greedy i k ob t m x :
  opt_number ob →
  k (32%N :: t) (set_opt_capture i ob m) = Some x →
  rmatch (Opt (Seq (Lit (js ",")) (Group i (Plus is_digit)))) k
    (count_suffix ob ++ 32%N :: t) m = Some x.
Proof.
  intros Hob Hk.
  change (rmatch (Opt ?r) k ?s m)
    with (match rmatch r k s m with Some y => Some y | None => k s m end).
  destruct ob as [b|]; unfold count_suffix.
  - change (rmatch (Seq ?r1 ?r2) k ?s m) with (rmatch r1 (rmatch r2 k) s m).
    rewrite <- app_assoc, rmatch_lit_app.
    destruct Hob as [Hne Hb].
    rewrite (rmatch_group_plus_greedy i is_digit k b (32%N :: t) m x);
      try done.
    by intros c t' [= <- <-].
  - by rewrite app_nil_l.
Qed.

End RegexFacts.

Section ExecFacts.

Lemma exec_here r s m : match_here r s = Some m → exec r s = Some m.
Proof. intros H. destruct s; simpl; by rewrite H. Qed.

Lemma exec_Some r s m :
  exec r s = Some m → ∃ pre tail, s = pre ++ tail ∧ match_here r tail = Some m.
Proof.
  induction s as [|c s IH]; simpl.
  - destruct (match_here r []) eqn:E; [|done]. intros [= ->]. by exists [], [].
  - destruct (match_here r (c :: s)) eqn:E.
    + intros [= ->]. by exists [], (c :: s).
    + intros (pre & tail & -> & H)%IH. by exists (c :: pre), tail.
Qed.

Lemma exec_app r pre tail :
  is_Some (match_here r tail) → is_Some (exec r (pre ++ tail)).
Proof.
  intros [m Hm]. induction pre as [|c pre IH]; simpl app.
  - exists m. by apply exec_here.
  - simpl. destruct (match_here r (c :: pre ++ tail)); [by eexists|done].
Qed.

End ExecFacts.

(* ===================================================================== *)
(** * Hunk headers *)
(* ===================================================================== *)

Section HunkHeader.

(** What the pattern accepts at the head of a string, and what it
    captures there. *)
Lemma match_here_hunk_Some s m :
  match_here hunk_re s = Some m →
  ∃ a ob c od rest,
    is_number a ∧ opt_number ob ∧ is_number c ∧ opt_number od ∧
    s = hunk_header_text a ob c od ++ rest ∧ m = hunk_captures a ob c od.
Proof.
  unfold match_here, hunk_re. intros H. open_seq.
  apply rmatch_lit_Some in H as (s1 & -> & H). open_seq.
  apply rmatch_group_plus_Some in H as (a & s2 & -> & Hane & Ha & H). open_seq.
  apply rmatch_opt_count_Some in H as (ob & s3 & -> & Hob & H). open_seq.
  apply rmatch_lit_Some in H as (s4 & -> & H). open_seq.
  apply rmatch_group_plus_Some in H as (c & s5 & -> & Hcne & Hc & H). open_seq.
  apply rmatch_opt_count_Some in H as (od & s6 & -> & Hod & H).
  apply rmatch_lit_Some in H as (rest & -> & [= <-]).
  exists a, ob, c, od, rest. unfold hunk_header_text, is_number.
  by rewrite <- !app_assoc.
Qed.

(** On a header of the grammar the pattern matches at once, and the
    groups are the numbers of the header. *)
Lemma match_here_hunk_header a ob c od rest :
  is_number a → opt_number ob → is_number c → opt_number od →
  match_here hunk_re (hunk_header_text a ob c od ++ rest)
  = Some (hunk_captures a ob c od).
Proof.
  intros [Hane Ha] Hob [Hcne Hc] Hod.
  unfold match_here, hunk_re, hunk_header_text. open_seq.
  rewrite <- !app_assoc, rmatch_lit_app. open_seq.
  assert (∀ (o : option (list N)) (u : list N) c0 t0,
            count_suffix o ++ 32%N :: u = c0 :: t0 → opt_number o →
            is_digit c0 = false) as Hstop.
  { intros [b|] u c0 t0; simpl; by intros [= <- _]. }
  apply rmatch_group_plus_greedy; try done.
  { intros c0 t0 E. by apply (Hstop ob _ c0 t0 E). }
  open_seq. apply rmatch_opt_count_greedy; [done|]. open_seq.
  change (32%N :: _ :: c ++ ?t) with (js " +" ++ c ++ t).
  rewrite rmatch_lit_app. open_seq.
  apply rmatch_group_plus_greedy; try done.
  { intros c0 t0 E. by apply (Hstop od _ c0 t0 E). }
  open_seq. apply rmatch_opt_count_greedy; [done|].
  change (32%N :: _ :: _ :: rest) with (js " @@" ++ rest).
  by rewrite rmatch_lit_app.
Qed.

Lemma count_or_one_captured ob :
  opt_number ob → count_or_one ob = Some (count_value ob).
Proof.
  destruct ob as [b|]; [|done]. intros Hb. simpl.
  destruct b as [|x b]; [by destruct Hb|]. by apply parseInt_number.
Qed.

Lemma hunk_captures_1 a ob c od : hunk_captures a ob c od 1%nat = Some a.
Proof. by destruct ob, od. Qed.
Lemma hunk_captures_2 a ob c od : hunk_captures a ob c od 2%nat = ob.
Proof. by destruct ob, od. Qed.
Lemma hunk_captures_3 a ob c od : hunk_captures a ob c od 3%nat = Some c.
Proof. by destruct ob, od. Qed.
Lemma hunk_captures_4 a ob c od : hunk_captures a ob c od 4%nat = od.
Proof. by destruct ob, od. Qed.

(** The record built from the groups of a match. *)
Lemma parseHunkHeader_exec line a ob c od :
  is_number a → opt_number ob → is_number c → opt_number od →
  exec hunk_re line = Some (hunk_captures a ob c od) →
  parseHunkHeader line = Some (header_hunk a ob c od).
Proof.
  intros Ha Hob Hc Hod E. unfold parseHunkHeader. rewrite E.
  rewrite hunk_captures_1, hunk_captures_2, hunk_captures_3, hunk_captures_4.
  simpl. rewrite (parseInt_number a Ha), (parseInt_number c Hc). simpl.
  rewrite (count_or_one_captured ob Hob), (count_or_one_captured od Hod).
  done.
Qed.

(** Every result comes from a header somewhere in the line. *)
Lemma parseHunkHeader_Some line h :
  parseHunkHeader line = Some h →
  ∃ pre a ob c od rest,
    is_number a ∧ opt_number ob ∧ is_number c ∧ opt_number od ∧
    line = pre ++ hunk_header_text a ob c od ++ rest ∧
    h = header_hunk a ob c od.
Proof.
  intros H. destruct (exec hunk_re line) as [m|] eqn:E.
  - pose proof E as E'.
    apply exec_Some in E' as (pre & tail & -> & Hm).
    apply match_here_hunk_Some in Hm
      as (a & ob & c & od & rest & Ha & Hob & Hc & Hod & -> & ->).
    rewrite (parseHunkHeader_exec _ a ob c od) in H by done.
    injection H as <-. by exists pre, a, ob, c, od, rest.
  - unfold parseHunkHeader in H. by rewrite E in H.
Qed.

(** [null] is returned exactly when the pattern does not match: no field
    of a result is [NaN]. *)
Lemma parseHunkHeader_None line :
  parseHunkHeader line = None ↔ exec hunk_re line = None.
Proof.
  split.
  - intros H. destruct (exec hunk_re line) as [m|] eqn:E; [|done].
    pose proof E as E'.
    apply exec_Some in E' as (pre & tail & -> & Hm).
    apply match_here_hunk_Some in Hm
      as (a & ob & c & od & rest & Ha & Hob & Hc & Hod & -> & ->).
    by rewrite (parseHunkHeader_exec _ a ob c od) in H.
  - intros E. unfold parseHunkHeader. by rewrite E.
Qed.

Lemma parseHunkHeader_contains line :
  is_Some (parseHunkHeader line) ↔ contains_hunk_header line.
Proof.
  split.
  - intros [h (pre & a & ob & c & od & rest & Ha & Hob & Hc & Hod & -> & _)
              %parseHunkHeader_Some].
    exists pre, (hunk_header_text a ob c od ++ rest). split; [done|].
    by exists a, ob, c, od, rest.
  - intros (pre & tail & -> & a & ob & c & od & rest
            & Ha & Hob & Hc & Hod & ->).
    destruct (parseHunkHeader (pre ++ _)) eqn:E; [by eexists|].
    apply parseHunkHeader_None in E.
    destruct (exec_app hunk_re pre (hunk_header_text a ob c od ++ rest))
      as [m Hm]; [|congruence].
    rewrite match_here_hunk_header by done. by eexists.
Qed.

Lemma header_hunk_nonneg a ob c od :
  is_number a → opt_number ob → is_number c → opt_number od →
  0 ≤ oldStart (header_hunk a ob c od) ∧ 0 ≤ oldCount (header_hunk a ob c od) ∧
  0 ≤ newStart (header_hunk a ob c od) ∧ 0 ≤ newCount (header_hunk a ob c od).
Proof.
  intros [_ Ha] Hob [_ Hc] Hod. simpl.
  assert (∀ o, opt_number o → 0 ≤ count_value o) as Hcv.
  { intros [b|]; simpl; [|lia]. intros [_ Hb]. by apply decimal_nonneg. }
  repeat split; auto using decimal_nonneg.
Qed.

End HunkHeader.

(* ===================================================================== *)
(** * Mappings written entry by entry *)
(* ===================================================================== *)

Section Entries.

Context {X V : Type} (f : X → option (list N * V)).

(** The loop [for (x of xs) { if (f x) m.set(k, v) }]. *)
Local Abbreviation run xs m0 := (fold_left (λ m x, put_entry m (f x)) xs m0).

Lemma snoc_split (xs l1 l2 : list X) (x y : X) :
  xs ++ [x] = l1 ++ y :: l2 →
  (l2 = [] ∧ xs = l1 ∧ x = y) ∨ (∃ l2', l2 = l2' ++ [x] ∧ xs = l1 ++ y :: l2').
Proof.
  destruct l2 as [|z l2 _] using rev_ind.
  - intros [-> ->]%app_inj_tail. by left.
  - rewrite app_comm_cons, app_assoc. intros [-> ->]%app_inj_tail.
    right. by exists l2.
Qed.

(** The binding of [k] is that of the last element that writes [k], or
    the initial one when no element does. *)
Lemma fold_entries_lookup xs m0 k v :
  run xs m0 !! k = Some v ↔
    (∃ l1 x l2, xs = l1 ++ x :: l2 ∧ f x = Some (k, v) ∧
                Forall (λ y, ∀ v', f y ≠ Some (k, v')) l2)
    ∨ (m0 !! k = Some v ∧ Forall (λ y, ∀ v', f y ≠ Some (k, v')) xs).
Proof.
  induction xs as [|x xs IH] using rev_ind.
  - simpl. split.
    + intros H. right. by split.
    + intros [(l1 & x & l2 & E & _)|[H _]]; [by destruct l1|done].
  - rewrite fold_left_app. cbn [fold_left].
    assert ((∃ v0, f x = Some (k, v0)) ∨ (∀ v', f x ≠ Some (k, v'))) as [[v0 Hx]|Hx].
    { destruct (f x) as [[k' v0]|]; [|by right].
      destruct (decide (k' = k)) as [->|]; [left; by eexists|].
      right. congruence. }
    + rewrite Hx. cbn [put_entry]. rewrite lookup_insert_eq. split.
      * intros [= ->]. left. exists xs, x, []. by repeat split.
      * intros [(l1 & y & l2 & E & Hy & Hl2)|[_ Hall]].
        -- apply snoc_split in E as [(-> & -> & ->)|(l2' & -> & ->)].
           ++ congruence.
           ++ apply Forall_app in Hl2 as [_ Hl2].
              inversion_clear Hl2 as [|?? Hno _]. by destruct (Hno v0).
        -- apply Forall_app in Hall as [_ Hall].
           inversion_clear Hall as [|?? Hno _]. by destruct (Hno v0).
    + assert (put_entry (fold_left (λ m x0, put_entry m (f x0)) xs m0) (f x) !! k
              = fold_left (λ m x0, put_entry m (f x0)) xs m0 !! k) as ->.
      { destruct (f x) as [[k' v0]|]; [|done]. cbn [put_entry].
        apply lookup_insert_ne. intros ->. by apply (Hx v0). }
      rewrite IH. split.
      * intros [(l1 & y & l2 & -> & Hy & Hl2)|[H Hall]].
        -- left. exists l1, y, (l2 ++ [x]). rewrite <- app_assoc. simpl.
           repeat split; [done|]. apply Forall_app. by repeat constructor.
        -- right. split; [done|]. apply Forall_app. by repeat constructor.
      * intros [(l1 & y & l2 & E & Hy & Hl2)|[H Hall]].
        -- apply snoc_split in E as [(-> & -> & ->)|(l2' & -> & ->)].
           ++ by destruct (Hx v).
           ++ left. exists l1, y, l2'. repeat split; [done|].
              by apply Forall_app in Hl2 as [? _].
        -- right. split; [done|]. by apply Forall_app in Hall as [? _].
Qed.

Lemma fold_entries_skip xs m0 :
  Forall (λ x, f x = None) xs → run xs m0 = m0.
Proof.
  revert m0. induction xs as [|x xs IH]; intros m0 H; [done|].
  inversion_clear H as [|?? Hx Hxs]. simpl. rewrite Hx. by apply IH.
Qed.

End Entries.

(* ===================================================================== *)
(** * Numstat *)
(* ===================================================================== *)

Section Numstat.

Lemma parseInt_whitespace a :
  forallb is_whitespace a = true → parseInt a = None.
Proof.
  intros H. unfold parseInt, trimStart.
  apply dropWhile_nil in H. by rewrite H.
Qed.

Lemma dropWhile_head {A} (p : A → bool) s c r :
  dropWhile p s = c :: r → c ∈ s.
Proof.
  induction s as [|x s IH]; simpl; [done|].
  destruct (p x).
  - intros H. right. by apply IH.
  - intros [= -> _]. by left.
Qed.

Lemma takeWhile_forallb {A} (p : A → bool) s :
  forallb p (takeWhile p s) = true.
Proof.
  induction s as [|c s IH]; simpl; [done|].
  destruct (p c) eqn:E; simpl; [|done]. by rewrite E.
Qed.

(** Without a minus sign in it, a count is not negative. *)
Lemma parseInt_nonneg s z : MINUS ∉ s → parseInt s = Some z → 0 ≤ z.
Proof.
  intros Hs. unfold parseInt, trimStart.
  destruct (dropWhile is_whitespace s) as [|c r] eqn:E; [done|].
  apply dropWhile_head in E.
  destruct (N.eqb_spec c MINUS) as [->|_]; [done|].
  assert (∀ t, match takeWhile is_digit t with
               | [] => None | ds => Some (1 * decimal ds) end = Some z → 0 ≤ z)
    as Hd.
  { intros t. pose proof (takeWhile_forallb is_digit t) as Ht.
    destruct (takeWhile is_digit t); [done|]. intros [= <-].
    apply decimal_nonneg in Ht. lia. }
  destruct (c =? PLUS)%N; apply Hd.
Qed.

(** The loop body writes the entry of the row, if it has one: a blank
    line has none. *)
Lemma numstat_line_entry stats row :
  numstat_line stats row = put_entry stats (row_entry row).
Proof.
  unfold numstat_line, row_entry.
  destruct (is_empty (trim row)) eqn:Hblank.
  - apply trim_empty in Hblank.
    pose proof (split_forallb _ TAB _ Hblank) as Hf.
    destruct (split TAB row) as [|a [|d [|r rest]]]; try done.
    inversion_clear Hf as [|?? Ha _].
    rewrite (parseInt_whitespace a Ha).
    by destruct (str_eqb a [MINUS] || str_eqb d [MINUS]).
  - destruct (split TAB row) as [|a [|d [|r rest]]]; try done.
    cbn [length Nat.ltb Nat.leb].
    destruct (str_eqb a [MINUS] || str_eqb d [MINUS]); [done|].
    destruct (parseInt a), (parseInt d); try done.
    by destruct ((_ =? 0) && (_ =? 0)).
Qed.

Lemma row_entry_valid row p v : row_entry row = Some (p, v) ↔ valid_row row p v.
Proof.
  unfold row_entry, valid_row. split.
  - destruct (split TAB row) as [|a [|d [|r rest]]]; try done.
    destruct (str_eqb a [MINUS] || str_eqb d [MINUS]) eqn:Hdash; [done|].
    apply orb_false_iff in Hdash as [Ha%str_eqb_neq Hd%str_eqb_neq].
    destruct (parseInt a) as [x|] eqn:Hx; [|done].
    destruct (parseInt d) as [y|] eqn:Hy; [|done].
    destruct ((x =? 0) && (y =? 0)) eqn:Hz; [done|].
    intros [= <- <-]. exists a, d, (r :: rest). simpl.
    repeat split; try done.
    intros [-> ->]. done.
  - intros (a & d & rest & -> & Hrest & Ha & Hd & Hpa & Hpd & Hz & ->).
    destruct rest as [|r rest]; [done|].
    apply str_eqb_neq in Ha, Hd. rewrite Ha, Hd, Hpa, Hpd. simpl.
    destruct ((added v =? 0) && (deleted v =? 0)) eqn:E.
    + apply andb_true_iff in E as [?%Z.eqb_eq ?%Z.eqb_eq]. by destruct Hz.
    + by destruct v.
Qed.

(** The guard on the whole text changes nothing: a text of white space
    has no row. *)
Lemma parseNumstat_fold text :
  parseNumstat text
  = fold_left (λ m row, put_entry m (row_entry row)) (split LF text) ∅.
Proof.
  unfold parseNumstat. destruct (is_empty (trim text)) eqn:Hblank.
  - symmetry. apply fold_entries_skip.
    apply trim_empty in Hblank.
    eapply Forall_impl; [apply (split_forallb _ LF _ Hblank)|].
    intros row Hrow. cbv beta in Hrow.
    pose proof (numstat_line_entry ∅ row) as E.
    unfold numstat_line in E.
    apply trim_empty in Hrow. rewrite Hrow in E.
    destruct (row_entry row) as [[p v]|]; [|done].
    simpl in E. exfalso.
    apply (f_equal (λ m : gmap (list N) FileDiffStats, m !! p)) in E.
    by rewrite lookup_empty, lookup_insert_eq in E.
  - generalize (∅ : gmap (list N) FileDiffStats).
    induction (split LF text) as [|row rows IH]; intros m; [done|].
    simpl. by rewrite numstat_line_entry, IH.
Qed.

(** The entries of the result: for each path, the counts of the last valid
    row of that path. *)
Lemma parseNumstat_lookup text p v :
  parseNumstat text !! p = Some v ↔
  ∃ l1 row l2, split LF text = l1 ++ row :: l2 ∧ valid_row row p v ∧
               Forall (λ row', ∀ v', ¬ valid_row row' p v') l2.
Proof.
  rewrite parseNumstat_fold, fold_entries_lookup. split.
  - intros [(l1 & row & l2 & E & Hrow & Hl2)|[H _]]; [|done].
    exists l1, row, l2. split; [done|]. split; [by apply row_entry_valid|].
    eapply Forall_impl; [exact Hl2|].
    intros row' H v' Hv'. by apply row_entry_valid, H in Hv'.
  - intros (l1 & row & l2 & E & Hrow & Hl2). left.
    exists l1, row, l2. split; [done|]. split; [by apply row_entry_valid|].
    eapply Forall_impl; [exact Hl2|].
    intros row' H v' Hv'. by apply row_entry_valid, H in Hv'.
Qed.

End Numstat.

(* ===================================================================== *)
(** * Unified diffs *)
(* ===================================================================== *)

Section UnifiedDiff.

Lemma whitespace_not_header l :
  forallb is_whitespace l = true → is_file_header l = false.
Proof.
  destruct l as [|c l]; [done|]. simpl. intros [Hc _]%andb_true_iff.
  unfold is_file_header, startsWith.
  change (js "diff --git ") with (100%N :: js "iff --git ").
  cbn [stripPrefix]. destruct (N.eqb_spec 100 c) as [<-|]; done.
Qed.

Lemma sections_no_header ls :
  Forall (λ l, is_file_header l = false) ls → sections ls = [].
Proof.
  induction 1 as [|l ls Hl _ IH]; simpl; [done|]. by rewrite Hl.
Qed.

Lemma body_prefix_no_header ls :
  Forall (λ l, is_file_header l = false) (body_prefix ls).
Proof.
  eapply Forall_impl; [apply takeWhile_Forall|].
  intros l. cbv beta. by intros ->%negb_true_iff.
Qed.

(** The state after the lines of a section body. *)
Lemma run_body F body :
  Forall (λ l, is_file_header l = false) body →
  ∀ cur hs,
    fold_left diff_line body (mkDiffState F cur hs)
    = if existsb is_binary_marker body then mkDiffState F None []
      else mkDiffState F cur
             (hs ++ if truthy cur then section_hunks body else []).
Proof.
  induction 1 as [|l body Hl _ IH]; intros cur hs.
  - simpl. destruct (truthy cur); by rewrite app_nil_r.
  - cbn [fold_left existsb].
    unfold is_file_header in Hl.
    destruct (is_binary_marker l) eqn:Hb; unfold is_binary_marker in Hb.
    + assert (diff_line (mkDiffState F cur hs) l = mkDiffState F None []) as ->.
      { unfold diff_line. by rewrite Hl, Hb. }
      rewrite IH. simpl. by destruct (existsb is_binary_marker body).
    + cbn [orb].
      destruct (is_hunk_line l && truthy cur) eqn:Hh.
      * apply andb_true_iff in Hh as [Hhl Hcur].
        assert (section_hunks (l :: body)
                = match parseHunkHeader l with
                  | Some h => h :: section_hunks body
                  | None => section_hunks body
                  end) as Hsec.
        { unfold section_hunks. cbn [List.filter]. rewrite Hhl. done. }
        assert (diff_line (mkDiffState F cur hs) l
                = match parseHunkHeader l with
                  | Some h => mkDiffState F cur (hs ++ [h])
                  | None => mkDiffState F cur hs
                  end) as ->.
        { unfold diff_line. unfold is_hunk_line in Hhl.
          rewrite Hl, Hb, Hhl. simpl. by rewrite Hcur. }
        rewrite Hsec, Hcur.
        destruct (parseHunkHeader l); rewrite IH, Hcur;
          destruct (existsb is_binary_marker body); try done.
        by rewrite <- app_assoc.
      * assert (diff_line (mkDiffState F cur hs) l = mkDiffState F cur hs) as ->.
        { unfold diff_line. unfold is_hunk_line in Hh.
          cbn [currentFile]. by rewrite Hl, Hb, Hh. }
        rewrite IH. destruct (existsb is_binary_marker body); [done|].
        destruct (truthy cur) eqn:Hcur; [|done].
        rewrite andb_true_r in Hh.
        unfold section_hunks. cbn [List.filter]. by rewrite Hh.
Qed.

(** What the end of a section saves. *)
Lemma save_section F hdr body :
  Forall (λ l, is_file_header l = false) body →
  save_file (fold_left diff_line body (mkDiffState F (header_path hdr) []))
  = put_entry F (section_entry (hdr, body)).
Proof.
  intros Hbody. rewrite run_body by done.
  unfold section_entry, save_file. cbn [fst snd].
  destruct (existsb is_binary_marker body).
  - simpl. destruct (header_path hdr); [|done]. by rewrite andb_false_r.
  - destruct (header_path hdr) as [[|c p]|]; try done.
    cbn [truthy negb andb app currentFile cur_hunks files].
    by destruct (section_hunks body).
Qed.

(** The loop, section by section. *)
Lemma run_sections ls st :
  save_file (fold_left diff_line ls st)
  = fold_left (λ m s, put_entry m (section_entry s)) (sections ls)
      (save_file (fold_left diff_line (body_prefix ls) st)).
Proof.
  revert st. induction ls as [|l ls IH]; intros st; [done|].
  cbn [fold_left sections]. unfold body_prefix. cbn [takeWhile].
  fold (body_prefix ls).
  destruct (is_file_header l) eqn:Hl; cbn [negb fold_left].
  - rewrite IH.
    assert (diff_line st l = mkDiffState (save_file st) (header_path l) []) as ->.
    { unfold diff_line. unfold is_file_header in Hl. by rewrite Hl. }
    by rewrite save_section by apply body_prefix_no_header.
  - apply IH.
Qed.

(** The guard on the whole text changes nothing: a text of white space
    has no section. *)
Lemma parseDiff_sections text :
  parseDiff text
  = fold_left (λ m s, put_entry m (section_entry s))
      (sections (split LF text)) ∅.
Proof.
  unfold parseDiff. destruct (is_empty (trim text)) eqn:Hblank.
  - apply trim_empty in Hblank. rewrite sections_no_header; [done|].
    eapply Forall_impl; [apply (split_forallb _ LF _ Hblank)|].
    apply whitespace_not_header.
  - rewrite run_sections. f_equal.
    unfold diff_init. rewrite run_body by apply body_prefix_no_header.
    by destruct (existsb _ _).
Qed.

Lemma section_entry_Some s p fd :
  section_entry s = Some (p, fd) ↔
  header_path (fst s) = Some p ∧ p ≠ [] ∧
  existsb is_binary_marker (snd s) = false ∧
  section_hunks (snd s) ≠ [] ∧
  fd = {| path := p; hunks := section_hunks (snd s) |}.
Proof.
  unfold section_entry. split.
  - destruct (header_path (fst s)) as [[|c q]|]; try done.
    cbn [truthy andb].
    destruct (existsb is_binary_marker (snd s)); [done|]. cbn [negb].
    destruct (section_hunks (snd s)) as [|h hs]; [done|].
    by intros [= <- <-].
  - intros (-> & Hp & -> & Hhs & ->). destruct p as [|c q]; [done|].
    cbn [truthy andb negb]. by destruct (section_hunks (snd s)).
Qed.

(** The entries of the result: for each path, the file diff of the last
    section that commits it. *)
Lemma parseDiff_lookup text p fd :
  parseDiff text !! p = Some fd ↔
  ∃ S1 s S2, sections (split LF text) = S1 ++ s :: S2 ∧
             section_entry s = Some (p, fd) ∧
             Forall (λ s', ∀ fd', section_entry s' ≠ Some (p, fd')) S2.
Proof.
  rewrite parseDiff_sections, fold_entries_lookup. split.
  - intros [H|[H _]]; [done|]. by rewrite lookup_empty in H.
  - intros H. by left.
Qed.



End UnifiedDiff.

(* ===================================================================== *)
(** * The examples of the test suite *)
(* ===================================================================== *)

Example parseHunkHeader_full :
  parseHunkHeader (js "@@ -10,5 +12,7 @@ function name() {")
  = Some (mkHunk 10 5 12 7).
Proof. vm_compute. reflexivity. Qed.

Example parseHunkHeader_pure_addition :
  parseHunkHeader (js "@@ -10,0 +10,5 @@") = Some (mkHunk 10 0 10 5).
Proof. vm_compute. reflexivity. Qed.

Example parseNumstat_blank :
  parseNumstat [] = ∅ ∧
  parseNumstat (line_sep [js "   "; js ""; js "  "]) = ∅.
Proof. split; vm_compute; reflexivity. Qed.

Example parseNumstat_one_row :
  parseNumstat (tab_sep [js "10"; js "5"; js "src/foo.ts"])
  = {[ js "src/foo.ts" := mkStats 10 5 ]}.
Proof. vm_compute. reflexivity. Qed.

Example parseNumstat_binary :
  parseNumstat (line_sep [tab_sep [js "-"; js "-"; js "image.png"];
                          tab_sep [js "10"; js "5"; js "src/code.ts"]])
  = {[ js "src/code.ts" := mkStats 10 5 ]}.
Proof. vm_compute. reflexivity. Qed.

Example parseNumstat_zero_row :
  parseNumstat (tab_sep [js "0"; js "0"; js "src/x.ts"]) = ∅.
Proof. vm_compute. reflexivity. Qed.

Example parseDiff_binary :
  parseDiff (line_sep [js "diff --git a/image.png b/image.png";
                       js "Binary files a/image.png and b/image.png differ";
                       js "diff --git a/src/code.ts b/src/code.ts";
                       js "--- a/src/code.ts";
                       js "+++ b/src/code.ts";
                       js "@@ -1,1 +1,2 @@";
                       js "+new line";
                       js ""])
  = {[ js "src/code.ts" := mkFileDiff (js "src/code.ts") [mkHunk 1 1 1 2] ]}.
Proof. vm_compute. reflexivity. Qed.

Example parseDiff_no_hunks :
  parseDiff (line_sep [js "diff --git a/src/empty.ts b/src/empty.ts";
                       js "index abc..def 100644";
                       js "diff --git a/src/real.ts b/src/real.ts";
                       js "@@ -1,1 +1,2 @@";
                       js "+content"])
  = {[ js "src/real.ts" := mkFileDiff (js "src/real.ts") [mkHunk 1 1 1 2] ]}.
Proof. vm_compute. reflexivity. Qed.

Example parseDiff_windows_path :
  parseDiff (line_sep [js "diff --git a/src\path\file.ts b/src\path\file.ts";
                       js "@@ -1,1 +1,2 @@"])
  !! js "src/path/file.ts"
  = Some (mkFileDiff (js "src/path/file.ts") [mkHunk 1 1 1 2]).
Proof. vm_compute. reflexivity. Qed.

Example calculateDefinitionDiff_untouched :
  calculateDefinitionDiff (makeDef 10 20) [mkHunk 1 2 1 3] = None.
Proof. reflexivity. Qed.

Example calculateDefinitionDiff_added :
  calculateDefinitionDiff (makeDef 10 15) [mkHunk 5 0 10 6]
  = Some (mkDefDiff StatusAdded 6 0).
Proof. reflexivity. Qed.

Example calculateDefinitionDiff_updated :
  calculateDefinitionDiff (makeDef 10 20) [mkHunk 12 2 12 4]
  = Some (mkDefDiff StatusUpdated 4 2).
Proof. reflexivity. Qed.

Example calculateDefinitionDiff_no_hunks def :
  calculateDefinitionDiff def [] = None.
Proof. reflexivity. Qed.

Example parseDiff_two_hunks :
  parseDiff (line_sep [js "diff --git a/src/bar.ts b/src/bar.ts";
                       js "index abc123..def456 100644";
                       js "--- a/src/bar.ts";
                       js "+++ b/src/bar.ts";
                       js "@@ -5,2 +5,4 @@ header";
                       js "+line1";
                       js "+line2";
                       js "@@ -20,1 +22,3 @@ other";
                       js "+more";
                       js "+lines";
                       js ""])
  = {[ js "src/bar.ts" :=
         mkFileDiff (js "src/bar.ts") [mkHunk 5 2 5 4; mkHunk 20 1 22 3] ]}.
Proof. vm_compute. reflexivity. Qed.

Example sections_two_files :
  sections (split LF diff_two_files)
  = [(js "diff --git a/src/a.ts b/src/a.ts",
      [js "index abc..def 100644"; js "--- a/src/a.ts"; js "+++ b/src/a.ts";
       js "@@ -1,1 +1,2 @@"; js "+added line"]);
     (js "diff --git a/src/b.ts b/src/b.ts",
      [js "index 123..456 100644"; js "--- a/src/b.ts"; js "+++ b/src/b.ts";
       js "@@ -10,2 +10,1 @@"; js "-removed line"; js ""])].
Proof. vm_compute. reflexivity. Qed.

Example parseDiff_two_files :
  omap section_entry (sections (split LF diff_two_files))
  = [(js "src/a.ts", mkFileDiff (js "src/a.ts") [mkHunk 1 1 1 2]);
     (js "src/b.ts", mkFileDiff (js "src/b.ts") [mkHunk 10 2 10 1])] ∧
  parseDiff diff_two_files
  = <[js "src/b.ts" := mkFileDiff (js "src/b.ts") [mkHunk 10 2 10 1]]>
      {[js "src/a.ts" := mkFileDiff (js "src/a.ts") [mkHunk 1 1 1 2]]} ∧
  size (parseDiff diff_two_files) = 2%nat.
Proof. repeat split; vm_compute; reflexivity. Qed.

(** A destination path that normalizes to the empty string is falsy:
    its hunk lines are not read and nothing is saved. *)
Example parseDiff_empty_path :
  header_path (js "diff --git a/x b/" ++ [QUOTE]) = Some [] ∧
  parseDiff diff_empty_path = ∅.
Proof. split; vm_compute; reflexivity. Qed.

(** The pattern for file headers is greedy: the destination is what
    follows the last [ b/]; a trailing carriage return is not part of it. *)
Example header_path_greedy :
  header_path (js "diff --git a/x b/y b/z") = Some (js "z") ∧
  header_path (js "diff --git a/x b/y" ++ [13%N]) = Some (js "y") ∧
  header_path (js "diff --git a/x") = None.
Proof. repeat split; vm_compute; reflexivity. Qed.

Example parseInt_examples :
  parseInt (js "12abc") = Some 12 ∧ parseInt (js " 7") = Some 7 ∧
  parseInt (js "-5") = Some (-5) ∧ parseInt (js "+5") = Some 5 ∧
  parseInt (js "abc") = None ∧ parseInt [] = None ∧
  parseInt (js "-") = None.
Proof. repeat split; vm_compute; reflexivity. Qed.

Example normalizePath_examples :
  normalizePath (js "src\path\file.ts") = js "src/path/file.ts" ∧
  normalizePath ([QUOTE] ++ js "a b" ++ [QUOTE]) = js "a b" ∧
  normalizePath ([QUOTE] ++ js "a" ++ [BACKSLASH; QUOTE] ++ js "b" ++ [QUOTE])
  = js "a" ++ [QUOTE] ++ js "b" ∧
  normalizePath [QUOTE] = [].
Proof. repeat split; vm_compute; reflexivity. Qed.

(* ===================================================================== *)
(** * The properties of the specification *)
(* ===================================================================== *)



(** C9.  For every list of definitions and every file diff,
    [applyDiffToDefinitions] returns a list of the same length and order
    in which every field of every definition other than [diff] is that of
    the input definition; when the file diff is absent or has no hunk the
    output is the input; and a [diff] is attached to a definition only
    when the classifier returns one for it, and then it is that one. *)
Theorem applyDiffToDefinitions_frame defs fileDiff :
  length (applyDiffToDefinitions defs fileDiff) = length defs ∧
  (∀ (i : nat) def, defs !! i = Some def →
     ∃ def', applyDiffToDefinitions defs fileDiff !! i = Some def' ∧
       same_fields def' def ∧
       (diff def' ≠ diff def →
        ∃ fd dd, fileDiff = Some fd ∧
                 calculateDefinitionDiff def (hunks fd) = Some dd ∧
                 diff def' = Some dd) ∧
       (∀ fd, fileDiff = Some fd → hunks fd ≠ [] →
              def' = match calculateDefinitionDiff def (hunks fd) with
                     | Some dd => with_diff def dd
                     | None => def
                     end)) ∧
  ((fileDiff = None ∨ ∃ fd, fileDiff = Some fd ∧ hunks fd = []) →
   applyDiffToDefinitions defs fileDiff = defs).
Proof.
  unfold applyDiffToDefinitions.
  destruct fileDiff as [fd|].
  2:{ split; [done|]. split; [|done]. intros i def Hi. exists def.
      repeat split; try done. }
  destruct (hunks fd) as [|h hs] eqn:Hhs; cbn [length Nat.eqb].
  { split; [done|]. split; [|done]. intros i def Hi. exists def.
    repeat split; try done. intros fd' [= <-]. by rewrite Hhs. }
  split; [apply length_map|]. split.
  - intros i def Hi.
    exists (match calculateDefinitionDiff def (h :: hs) with
            | Some dd => with_diff def dd
            | None => def
            end).
    split.
    { change (List.map ?f defs) with (f <$> defs).
      by rewrite list_lookup_fmap, Hi. }
    split; [by destruct (calculateDefinitionDiff def (h :: hs))|].
    split.
    + intros Hd. destruct (calculateDefinitionDiff def (h :: hs)) as [dd|] eqn:E;
        [|done].
      exists fd, dd. by rewrite Hhs.
    + intros fd' [= <-] _. by rewrite Hhs.
  - intros [[=]|(fd' & [= <-] & H)]. by rewrite Hhs in H.
Qed.

(** C3, as the code has it.  [parseHunkHeader] returns a hunk record if
    and only if the line contains, at any position, a text of the form
    [@@ -<oldStart>[,<oldCount>] +<newStart>[,<newCount>] @@]: the pattern
    is searched for, not anchored at the beginning of the line.  In
    particular a line that starts with such a header gives a record, and
    the lines ["not a hunk"], [""] and ["@@@ invalid @@@"] give none.  The
    function is total: it never throws. *)
Theorem parseHunkHeader_matches :
  (∀ l, is_Some (parseHunkHeader l) ↔ contains_hunk_header l) ∧
  (∀ l, hunk_header_line l → is_Some (parseHunkHeader l)) ∧
  parseHunkHeader (js "not a hunk") = None ∧
  parseHunkHeader [] = None ∧
  parseHunkHeader (js "@@@ invalid @@@") = None.
Proof.
  split; [apply parseHunkHeader_contains|]. split.
  - intros l Hl. apply parseHunkHeader_contains. by exists [], l.
  - repeat split; vm_compute; reflexivity.
Qed.

(** C3 fails as stated: this line yields a record and does not start with
    a hunk header. *)
Lemma parseHunkHeader_not_anchored :
  parseHunkHeader (js "x@@ -1 +1 @@") = Some (mkHunk 1 1 1 1) ∧
  ¬ hunk_header_line (js "x@@ -1 +1 @@").
Proof.
  split; [vm_compute; reflexivity|].
  intros (a & ob & c & od & rest & _ & _ & _ & _ & E).
  unfold hunk_header_text in E.
  change (js "@@ -" ++ ?t) with (64%N :: js "@ -" ++ t) in E.
  change (js "x@@ -1 +1 @@") with (120%N :: js "@@ -1 +1 @@") in E.
  discriminate E.
Qed.

(* ===================================================================== *)
(** * Further properties: the classifier and the file totals *)
(* ===================================================================== *)

Section ClassifierMore.

Lemma added_sum_cons def h hs :
  added_sum def (h :: hs) = intersection_length def h + added_sum def hs.
Proof. reflexivity. Qed.

Lemma deleted_sum_cons def h hs :
  deleted_sum def (h :: hs)
  = (if (0 <? oldCount h) && touches def h then oldCount h else 0)
    + deleted_sum def hs.
Proof.
  unfold deleted_sum. cbn [List.filter].
  destruct ((0 <? oldCount h) && touches def h);
    rewrite ?fmap_cons, ?sumZ_cons; lia.
Qed.

Lemma calculateDefinitionDiff_sums def hs :
  calculateDefinitionDiff def hs
  = if (added_sum def hs =? 0) && (deleted_sum def hs =? 0) then None
    else Some {| status :=
                   if (endLine def - line def + 1 <=? added_sum def hs)
                      && (deleted_sum def hs =? 0)
                   then StatusAdded else StatusUpdated;
                 dd_added := added_sum def hs;
                 dd_deleted := deleted_sum def hs |}.
Proof. unfold calculateDefinitionDiff. by rewrite def_totals_sums. Qed.

Lemma intersection_length_nonneg def h : 0 ≤ intersection_length def h.
Proof. unfold intersection_length. lia. Qed.

Lemma added_sum_nonneg def hs : 0 ≤ added_sum def hs.
Proof.
  induction hs as [|h hs IH]; [done|]. rewrite added_sum_cons.
  pose proof (intersection_length_nonneg def h). lia.
Qed.

Lemma deleted_sum_nonneg def hs : 0 ≤ deleted_sum def hs.
Proof.
  induction hs as [|h hs IH]; [done|]. rewrite deleted_sum_cons.
  destruct (Z.ltb_spec 0 (oldCount h)); simpl; [|lia].
  destruct (touches def h); lia.
Qed.

Lemma file_fold hs a d :
  fold_left file_step hs (a, d)
  = (a + sumZ (newCount <$> hs), d + sumZ (oldCount <$> hs)).
Proof.
  revert a d. induction hs as [|h hs IH]; intros a d.
  - simpl. f_equal; lia.
  - cbn [fold_left file_step]. rewrite IH, !fmap_cons, !sumZ_cons.
    f_equal; lia.
Qed.

Lemma sumZ_nonneg_zero (f : DiffHunk → Z) hs :
  Forall (λ h, 0 ≤ f h) hs →
  0 ≤ sumZ (f <$> hs) ∧
  (sumZ (f <$> hs) = 0 ↔ Forall (λ h, f h = 0) hs).
Proof.
  induction 1 as [|h hs Hh _ [IH1 IH2]]; [by split|].
  rewrite fmap_cons, sumZ_cons. split; [lia|]. split.
  - intros E. constructor; [lia|]. apply IH2. lia.
  - intros Hall. inversion_clear Hall as [|?? H0 Hrest].
    apply IH2 in Hrest. lia.
Qed.

Lemma calculateFileDiff_spec hs :
  (calculateFileDiff hs = None ↔
   hs = [] ∨ (sumZ (newCount <$> hs) = 0 ∧ sumZ (oldCount <$> hs) = 0)) ∧
  (∀ v, calculateFileDiff hs = Some v →
        added v = sumZ (newCount <$> hs) ∧ deleted v = sumZ (oldCount <$> hs)).
Proof.
  unfold calculateFileDiff. destruct hs as [|h hs]; [by split; [split; [left|]|]|].
  cbn [length Nat.eqb]. rewrite file_fold, !Z.add_0_l.
  destruct ((_ =? 0) && (_ =? 0)) eqn:Hz.
  - apply andb_true_iff in Hz as [?%Z.eqb_eq ?%Z.eqb_eq].
    split; [|done]. split; [by right|done].
  - split; [|by intros v [= <-]]. split; [done|].
    intros [[=]|[E1 E2]]. rewrite E1, E2 in Hz. done.
Qed.

Lemma definition_diff_counts def hs dd :
  calculateDefinitionDiff def hs = Some dd →
  0 ≤ dd_added dd ∧ 0 ≤ dd_deleted dd ∧ (0 < dd_added dd ∨ 0 < dd_deleted dd).
Proof.
  rewrite calculateDefinitionDiff_sums.
  pose proof (added_sum_nonneg def hs). pose proof (deleted_sum_nonneg def hs).
  destruct ((added_sum def hs =? 0) && (deleted_sum def hs =? 0)) eqn:Hz;
    [done|].
  intros [= <-]. cbn [dd_added dd_deleted].
  apply andb_false_iff in Hz as [?%Z.eqb_neq|?%Z.eqb_neq]; lia.
Qed.

End ClassifierMore.


(** X2.  For hunks whose counts are not negative, as all parsed hunks
    are, [calculateFileDiff] returns [null] exactly when every hunk has
    [newCount = 0] and [oldCount = 0] (an empty list included), and the
    totals of a result are not negative. *)
Theorem calculateFileDiff_null hs :
  Forall (λ h, 0 ≤ newCount h ∧ 0 ≤ oldCount h) hs →
  (calculateFileDiff hs = None ↔
   Forall (λ h, newCount h = 0 ∧ oldCount h = 0) hs) ∧
  (∀ v, calculateFileDiff hs = Some v → 0 ≤ added v ∧ 0 ≤ deleted v).
Proof.
  intros Hnn.
  destruct (sumZ_nonneg_zero newCount hs) as [Hn1 Hn2];
    [by eapply Forall_impl; [exact Hnn|]; intros ? []|].
  destruct (sumZ_nonneg_zero oldCount hs) as [Ho1 Ho2];
    [by eapply Forall_impl; [exact Hnn|]; intros ? []|].
  destruct (calculateFileDiff_spec hs) as [Hnone Hsome]. split.
  - rewrite Hnone, Hn2, Ho2. split.
    + intros [->|[H1 H2]]; [constructor|].
      apply Forall_forall. intros h Hh.
      rewrite Forall_forall in H1, H2. split; [by apply H1|by apply H2].
    + intros H. right.
      split; (eapply Forall_impl; [exact H|]); by intros ? [].
  - intros v [-> ->]%Hsome. done.
Qed.

Lemma calculateFileDiff_null_witness :
  Forall (λ h, 0 ≤ newCount h ∧ 0 ≤ oldCount h) [mkHunk 10 3 10 5] ∧
  ((calculateFileDiff [mkHunk 10 3 10 5] = None ↔
    Forall (λ h, newCount h = 0 ∧ oldCount h = 0) [mkHunk 10 3 10 5]) ∧
   (∀ v, calculateFileDiff [mkHunk 10 3 10 5] = Some v →
         0 ≤ added v ∧ 0 ≤ deleted v)).
Proof.
  assert (Forall (λ h, 0 ≤ newCount h ∧ 0 ≤ oldCount h) [mkHunk 10 3 10 5])
    as H by (repeat constructor; simpl; lia).
  split; [exact H|]. exact (calculateFileDiff_null _ H).
Defined.

(** X3.  The counts of a [DefinitionDiff] are never negative and never
    both zero, whatever the hunks (even hunks with negative counts). *)
Theorem calculateDefinitionDiff_counts def hs dd :
  calculateDefinitionDiff def hs = Some dd →
  0 ≤ dd_added dd ∧ 0 ≤ dd_deleted dd ∧ (0 < dd_added dd ∨ 0 < dd_deleted dd).
Proof. exact (definition_diff_counts def hs dd). Qed.

Lemma calculateDefinitionDiff_counts_witness :
  calculateDefinitionDiff (makeDef 10 20) [mkHunk 12 2 12 4]
  = Some (mkDefDiff StatusUpdated 4 2) ∧
  (0 ≤ dd_added (mkDefDiff StatusUpdated 4 2) ∧
   0 ≤ dd_deleted (mkDefDiff StatusUpdated 4 2) ∧
   (0 < dd_added (mkDefDiff StatusUpdated 4 2)
    ∨ 0 < dd_deleted (mkDefDiff StatusUpdated 4 2))).
Proof.
  assert (calculateDefinitionDiff (makeDef 10 20) [mkHunk 12 2 12 4]
          = Some (mkDefDiff StatusUpdated 4 2)) as H by reflexivity.
  split; [exact H|]. exact (calculateDefinitionDiff_counts _ _ _ H).
Defined.

(** X4.  Within the exact range, the order of the hunks does not matter
    to the classifier. *)
Theorem calculateDefinitionDiff_permutation def hs hs' :
  safe_lines def → safe_hunks hs →
  Permutation hs hs' →
  calculateDefinitionDiff def hs = calculateDefinitionDiff def hs'.
Proof.
  intros _ _ Hp. rewrite !calculateDefinitionDiff_sums.
  assert (added_sum def hs = added_sum def hs'
          ∧ deleted_sum def hs = deleted_sum def hs') as [-> ->]; [|done].
  induction Hp as [|h l l' _ [IH1 IH2]|h1 h2 l|l l' l'' _ [? ?] _ [? ?]].
  - done.
  - rewrite !added_sum_cons, !deleted_sum_cons. split; lia.
  - rewrite !added_sum_cons, !deleted_sum_cons. split; lia.
  - split; congruence.
Qed.

Lemma calculateDefinitionDiff_permutation_witness :
  safe_lines (makeDef 10 20) ∧
  safe_hunks [mkHunk 12 2 12 4; mkHunk 30 1 30 1] ∧
  Permutation [mkHunk 12 2 12 4; mkHunk 30 1 30 1]
              [mkHunk 30 1 30 1; mkHunk 12 2 12 4] ∧
  calculateDefinitionDiff (makeDef 10 20) [mkHunk 12 2 12 4; mkHunk 30 1 30 1]
  = calculateDefinitionDiff (makeDef 10 20)
      [mkHunk 30 1 30 1; mkHunk 12 2 12 4].
Proof.
  assert (Permutation [mkHunk 12 2 12 4; mkHunk 30 1 30 1]
                      [mkHunk 30 1 30 1; mkHunk 12 2 12 4]) as H
    by apply perm_swap.
  assert (safe_lines (makeDef 10 20)) as Hl by solve_safe.
  assert (safe_hunks [mkHunk 12 2 12 4; mkHunk 30 1 30 1]) as Hh
    by solve_safe.
  split; [exact Hl|]. split; [exact Hh|]. split; [exact H|].
  exact (calculateDefinitionDiff_permutation _ _ _ Hl Hh H).
Defined.

(** X5.  Within the exact range, only the hunks whose new span touches
    the definition's span count: dropping all the others leaves the
    result as it is. *)
Theorem calculateDefinitionDiff_touching def hs :
  safe_lines def → safe_hunks hs →
  calculateDefinitionDiff def (List.filter (touches def) hs)
  = calculateDefinitionDiff def hs.
Proof.
  intros _ _. rewrite !calculateDefinitionDiff_sums.
  assert (added_sum def (List.filter (touches def) hs) = added_sum def hs
          ∧ deleted_sum def (List.filter (touches def) hs)
            = deleted_sum def hs) as [-> ->]; [|done].
  induction hs as [|h hs [IH1 IH2]]; [done|]. cbn [List.filter].
  destruct (touches def h) eqn:Ht.
  - rewrite !added_sum_cons, !deleted_sum_cons, Ht. split; lia.
  - rewrite added_sum_cons, deleted_sum_cons, Ht, andb_false_r.
    rewrite intersection_length_eq. unfold touches in Ht.
    apply andb_false_iff in Ht as [?%Z.leb_gt|?%Z.leb_gt]; split; lia.
Qed.

Lemma calculateDefinitionDiff_touching_witness :
  safe_lines (makeDef 10 20) ∧
  safe_hunks [mkHunk 12 2 12 4; mkHunk 30 1 30 1] ∧
  calculateDefinitionDiff (makeDef 10 20)
    (List.filter (touches (makeDef 10 20))
       [mkHunk 12 2 12 4; mkHunk 30 1 30 1])
  = calculateDefinitionDiff (makeDef 10 20)
      [mkHunk 12 2 12 4; mkHunk 30 1 30 1].
Proof.
  assert (safe_lines (makeDef 10 20)) as Hl by solve_safe.
  assert (safe_hunks [mkHunk 12 2 12 4; mkHunk 30 1 30 1]) as Hh
    by solve_safe.
  split; [exact Hl|]. split; [exact Hh|].
  exact (calculateDefinitionDiff_touching _ _ Hl Hh).
Defined.

(** X6.  Within the exact range (counts that are not negative, totals
    of at most 2^53 - 1), a definition is never given more added or
    deleted lines than [calculateFileDiff] gives the whole file: when the
    classifier returns a diff, the file totals exist and bound it. *)
Theorem calculateDefinitionDiff_within_file def hs dd :
  safe_lines def → safe_hunks hs →
  calculateDefinitionDiff def hs = Some dd →
  ∃ v, calculateFileDiff hs = Some v ∧
       dd_added dd ≤ added v ∧ dd_deleted dd ≤ deleted v.
Proof.
  intros _ [Hsafe _] Hdd.
  assert (Forall (λ h, 0 ≤ newCount h ∧ 0 ≤ oldCount h) hs) as Hnn.
  { eapply Forall_impl; [exact Hsafe|]. by intros h (? & ? & ? & ?). }
  assert (added_sum def hs ≤ sumZ (newCount <$> hs)
          ∧ deleted_sum def hs ≤ sumZ (oldCount <$> hs)) as [Ha Hd].
  { clear Hdd Hsafe. induction Hnn as [|h hs [Hn Ho] _ [IH1 IH2]]; [done|].
    rewrite added_sum_cons, deleted_sum_cons, !fmap_cons, !sumZ_cons.
    rewrite intersection_length_eq. split; [lia|].
    destruct ((0 <? oldCount h) && touches def h); lia. }
  pose proof (definition_diff_counts _ _ _ Hdd) as (H1 & H2 & H3).
  rewrite calculateDefinitionDiff_sums in Hdd.
  destruct ((added_sum def hs =? 0) && (deleted_sum def hs =? 0)); [done|].
  injection Hdd as <-. cbn [dd_added dd_deleted] in *.
  destruct (calculateFileDiff hs) as [v|] eqn:Hv.
  - exists v. split; [done|].
    apply (proj2 (calculateFileDiff_spec hs)) in Hv as [-> ->]. done.
  - apply (proj1 (calculateFileDiff_spec hs)) in Hv as [->|[E1 E2]].
    + change (added_sum def []) with 0 in *.
      change (deleted_sum def []) with 0 in *. lia.
    + lia.
Qed.

Lemma calculateDefinitionDiff_within_file_witness :
  safe_lines (makeDef 10 20) ∧
  safe_hunks [mkHunk 12 2 12 4; mkHunk 30 1 30 1] ∧
  calculateDefinitionDiff (makeDef 10 20) [mkHunk 12 2 12 4; mkHunk 30 1 30 1]
  = Some (mkDefDiff StatusUpdated 4 2) ∧
  ∃ v, calculateFileDiff [mkHunk 12 2 12 4; mkHunk 30 1 30 1] = Some v ∧
       dd_added (mkDefDiff StatusUpdated 4 2) ≤ added v ∧
       dd_deleted (mkDefDiff StatusUpdated 4 2) ≤ deleted v.
Proof.
  assert (safe_lines (makeDef 10 20)) as Hl by solve_safe.
  assert (safe_hunks [mkHunk 12 2 12 4; mkHunk 30 1 30 1]) as H
    by solve_safe.
  assert (calculateDefinitionDiff (makeDef 10 20)
            [mkHunk 12 2 12 4; mkHunk 30 1 30 1]
          = Some (mkDefDiff StatusUpdated 4 2)) as E by reflexivity.
  split; [exact Hl|]. split; [exact H|]. split; [exact E|].
  exact (calculateDefinitionDiff_within_file _ _ _ Hl H E).
Defined.

Section DisjointSpans.

Lemma spans_disjoint_tail h hs : spans_disjoint (h :: hs) → spans_disjoint hs.
Proof.
  intros H i j h1 h2 l Hi Hj H1 H2.
  assert (S i = S j) as E by (by apply (H (S i) (S j) h1 h2 l)).
  by injection E.
Qed.

(** A line lies in the new span of at most one hunk. *)
Lemma hits_at_most_once l hs :
  spans_disjoint hs →
  0 ≤ sumZ ((λ h, if in_new_span h l then 1 else 0) <$> hs) ≤ 1.
Proof.
  induction hs as [|h hs IH]; intros Hd; [done|].
  rewrite fmap_cons, sumZ_cons.
  specialize (IH (spans_disjoint_tail _ _ Hd)).
  destruct (in_new_span h l) eqn:Hh; [|lia].
  assert (sumZ ((λ h0, if in_new_span h0 l then 1 else 0) <$> hs) = 0) as ->;
    [|lia].
  assert (∀ j h', hs !! j = Some h' → in_new_span h' l = false) as Hnone.
  { intros j h' Hj. destruct (in_new_span h' l) eqn:E; [|done].
    by pose proof (Hd 0%nat (S j) h h' l eq_refl Hj Hh E). }
  clear -Hnone. induction hs as [|h' hs IH]; [done|].
  rewrite fmap_cons, sumZ_cons, (Hnone 0%nat h' eq_refl), IH; [done|].
  intros j h'' Hj. by apply (Hnone (S j)).
Qed.

(** The lines of a list that lie in some span, each counted once per
    span, are not more than the lines of the list. *)
Lemma covered_lines_bound (L : list Z) hs :
  spans_disjoint hs →
  sumZ ((λ h, Z.of_nat (length (List.filter (in_new_span h) L))) <$> hs)
  ≤ Z.of_nat (length L).
Proof.
  intros Hd. induction L as [|l L IH].
  - simpl. induction hs as [|h hs IHhs]; [done|].
    rewrite fmap_cons, sumZ_cons, (IHhs (spans_disjoint_tail _ _ Hd)). done.
  - assert (sumZ ((λ h, Z.of_nat (length (List.filter (in_new_span h) (l :: L))))
                    <$> hs)
            = sumZ ((λ h, if in_new_span h l then 1 else 0) <$> hs)
              + sumZ ((λ h, Z.of_nat (length (List.filter (in_new_span h) L)))
                        <$> hs)) as ->.
    { clear. induction hs as [|h hs IHhs]; [done|].
      rewrite !fmap_cons, !sumZ_cons, IHhs. cbn [List.filter].
      destruct (in_new_span h l); cbn [length]; lia. }
    pose proof (hits_at_most_once l hs Hd). cbn [length]. lia.
Qed.

Lemma added_sum_bound def hs :
  line def ≤ endLine def → spans_disjoint hs →
  added_sum def hs ≤ endLine def - line def + 1.
Proof.
  intros Hle Hd. pose proof (covered_lines_bound (def_lines def) hs Hd) as H.
  unfold def_lines in H at 2. rewrite length_seqZ in H.
  unfold added_sum, intersection_length. lia.
Qed.

End DisjointSpans.

(** X7.  Within the exact range, when the new spans of the hunks are
    pairwise disjoint, a definition is given at most as many added lines
    as it has lines, and its status is "added" exactly when every one of
    its lines is counted and nothing is deleted. *)
Theorem calculateDefinitionDiff_disjoint def hs dd :
  line def ≤ endLine def → safe_lines def → safe_hunks hs →
  spans_disjoint hs →
  calculateDefinitionDiff def hs = Some dd →
  dd_added dd ≤ endLine def - line def + 1 ∧
  (status dd = StatusAdded ↔
   dd_added dd = endLine def - line def + 1 ∧ dd_deleted dd = 0).
Proof.
  intros Hle _ _ Hd. pose proof (added_sum_bound def hs Hle Hd) as Hb.
  rewrite calculateDefinitionDiff_sums.
  destruct ((added_sum def hs =? 0) && (deleted_sum def hs =? 0)); [done|].
  intros [= <-]. cbn [status dd_added dd_deleted]. split; [done|].
  destruct (Z.leb_spec (endLine def - line def + 1) (added_sum def hs));
    destruct (Z.eqb_spec (deleted_sum def hs) 0); cbn [andb];
    split; try done; try lia; intros [? ?]; try lia; done.
Qed.

Lemma calculateDefinitionDiff_disjoint_witness :
  line (makeDef 10 15) ≤ endLine (makeDef 10 15) ∧
  safe_lines (makeDef 10 15) ∧
  safe_hunks [mkHunk 5 0 10 3; mkHunk 5 0 13 3] ∧
  spans_disjoint [mkHunk 5 0 10 3; mkHunk 5 0 13 3] ∧
  calculateDefinitionDiff (makeDef 10 15) [mkHunk 5 0 10 3; mkHunk 5 0 13 3]
  = Some (mkDefDiff StatusAdded 6 0) ∧
  dd_added (mkDefDiff StatusAdded 6 0)
  ≤ endLine (makeDef 10 15) - line (makeDef 10 15) + 1 ∧
  (status (mkDefDiff StatusAdded 6 0) = StatusAdded ↔
   dd_added (mkDefDiff StatusAdded 6 0)
   = endLine (makeDef 10 15) - line (makeDef 10 15) + 1
   ∧ dd_deleted (mkDefDiff StatusAdded 6 0) = 0).
Proof.
  assert (line (makeDef 10 15) ≤ endLine (makeDef 10 15)) as H1
    by (simpl; lia).
  assert (safe_lines (makeDef 10 15)) as Hl by solve_safe.
  assert (safe_hunks [mkHunk 5 0 10 3; mkHunk 5 0 13 3]) as Hh by solve_safe.
  assert (spans_disjoint [mkHunk 5 0 10 3; mkHunk 5 0 13 3]) as H2.
  { intros [|[|i]] [|[|j]] h1 h2 l Hi Hj; try done;
      injection Hi as <-; injection Hj as <-; unfold in_new_span;
      cbn [newStart newCount];
      intros [?%Z.leb_le ?%Z.leb_le]%andb_true_iff
             [?%Z.leb_le ?%Z.leb_le]%andb_true_iff; lia. }
  assert (calculateDefinitionDiff (makeDef 10 15)
            [mkHunk 5 0 10 3; mkHunk 5 0 13 3]
          = Some (mkDefDiff StatusAdded 6 0)) as H3 by reflexivity.
  split; [exact H1|]. split; [exact Hl|]. split; [exact Hh|].
  split; [exact H2|]. split; [exact H3|].
  exact (calculateDefinitionDiff_disjoint _ _ _ H1 Hl Hh H2 H3).
Defined.

(* ===================================================================== *)
(** * Further properties: paths *)
(* ===================================================================== *)

Section PathFacts.

Lemma replace1_not_in a r s : a ≠ r → a ∉ replace1 a r s.
Proof.
  intros Hne. unfold replace1. induction s as [|c s IH]; simpl.
  - apply not_elem_of_nil.
  - apply not_elem_of_cons. split; [|done].
    destruct (N.eqb_spec c a); congruence.
Qed.

Lemma replace1_id a r s : a ∉ s → replace1 a r s = s.
Proof.
  unfold replace1. induction s as [|c s IH]; simpl; [done|].
  intros [Hc Hs]%not_elem_of_cons. rewrite (IH Hs).
  destruct (N.eqb_spec c a); congruence.
Qed.

Lemma replace1_nil a r s : replace1 a r s = [] ↔ s = [].
Proof. by destruct s. Qed.

Lemma replace2_nil a b r s : replace2 a b r s = [] ↔ s = [].
Proof.
  destruct s as [|c [|d u]]; simpl; try done.
  by destruct ((c =? a)%N && (d =? b)%N).
Qed.

Lemma replace2_id a b r s : a ∉ s → replace2 a b r s = s.
Proof.
  induction s as [|c s IH]; [done|].
  intros [Hc Hs]%not_elem_of_cons. cbn [replace2].
  destruct s as [|d u]; [done|].
  destruct (N.eqb_spec c a) as [->|_]; [done|]. cbn [andb].
  by rewrite (IH Hs).
Qed.

Lemma normalizePath_backslash_free p : BACKSLASH ∉ normalizePath p.
Proof. unfold normalizePath. by apply replace1_not_in. Qed.

End PathFacts.

(** X8.  [normalizePath] never returns a path with a backslash in it. *)
Theorem normalizePath_no_backslash p : BACKSLASH ∉ normalizePath p.
Proof. exact (normalizePath_backslash_free p). Qed.

(** X9.  [normalizePath] returns the empty string for exactly three
    inputs: the empty string, a lone double quote, and two double
    quotes. *)
Theorem normalizePath_empty p :
  normalizePath p = [] ↔ p = [] ∨ p = [QUOTE] ∨ p = [QUOTE; QUOTE].
Proof.
  unfold normalizePath. rewrite replace1_nil.
  destruct (startsWith [QUOTE] p && endsWith [QUOTE] p) eqn:Hq.
  - rewrite !replace2_nil. unfold slice_1_m1.
    apply andb_true_iff in Hq as [Hs He].
    unfold endsWith, startsWith in *.
    destruct p as [|c [|d [|e t]]]; cbn [tl removelast].
    + done.
    + revert Hs. cbn [stripPrefix].
      destruct (N.eqb_spec QUOTE c) as [<-|]; [|done].
      intros _. split; [by right; left|done].
    + revert Hs He. cbn [rev app stripPrefix].
      destruct (N.eqb_spec QUOTE c) as [<-|]; [|done].
      destruct (N.eqb_spec QUOTE d) as [<-|]; [|done].
      intros _ _. split; [by right; right|done].
    + split; [done|]. intros [H|[H|H]]; discriminate H.
  - split; [by left|]. intros [-> | [-> | ->]]; [done|done|done].
Qed.

(** X10.  A path wrapped in double quotes, with no backslash in it, is
    returned without the quotes. *)
Theorem normalizePath_quoted q :
  BACKSLASH ∉ q → normalizePath (QUOTE :: q ++ [QUOTE]) = q.
Proof.
  intros Hq. unfold normalizePath.
  assert (startsWith [QUOTE] (QUOTE :: q ++ [QUOTE]) = true) as -> by done.
  assert (endsWith [QUOTE] (QUOTE :: q ++ [QUOTE]) = true) as ->.
  { unfold endsWith. cbn [rev]. by rewrite rev_app_distr. }
  cbn [andb]. unfold slice_1_m1. cbn [tl]. rewrite removelast_last.
  rewrite (replace2_id _ _ _ q) by done.
  rewrite (replace2_id _ _ _ q) by done.
  by apply replace1_id.
Qed.

Lemma normalizePath_quoted_witness :
  (BACKSLASH ∉ js "path with spaces/file.ts") ∧
  normalizePath (QUOTE :: js "path with spaces/file.ts" ++ [QUOTE])
  = js "path with spaces/file.ts".
Proof.
  assert (BACKSLASH ∉ js "path with spaces/file.ts") as H.
  { intros Hin. apply list_elem_of_In in Hin. vm_compute in Hin.
    repeat (destruct Hin as [Hin|Hin]; [discriminate Hin|]). exact Hin. }
  split; [exact H|]. exact (normalizePath_quoted _ H).
Defined.

(* ===================================================================== *)
(** * Further properties: numstat *)
(* ===================================================================== *)

Section SplitFacts.

Lemma split_app_sep sep s1 s2 :
  split sep (s1 ++ sep :: s2) = split sep s1 ++ split sep s2.
Proof.
  induction s1 as [|c s1 IH]; simpl.
  - by rewrite N.eqb_refl.
  - rewrite IH. destruct (c =? sep)%N; [done|].
    by destruct (split_cons_inv sep s1) as (f & fs & ->).
Qed.

Lemma split_none sep s : sep ∉ s → split sep s = [s].
Proof.
  induction s as [|c s IH]; [done|].
  intros [Hc Hs]%not_elem_of_cons. simpl. rewrite (IH Hs).
  destruct (N.eqb_spec c sep); congruence.
Qed.

Lemma join_cons sep p q qs :
  join sep (p :: q :: qs) = p ++ sep :: join sep (q :: qs).
Proof. reflexivity. Qed.

(** Joining what was split gives the string back. *)
Lemma join_split sep s : join sep (split sep s) = s.
Proof.
  induction s as [|c s IH]; [done|]. cbn [split].
  destruct (split_cons_inv sep s) as (f & fs & E). rewrite E in *.
  destruct (N.eqb_spec c sep) as [->|_].
  - by rewrite join_cons, IH.
  - destruct fs as [|g fs].
    + cbn [join] in *. by rewrite IH.
    + rewrite join_cons in *. by rewrite <- IH.
Qed.

Lemma fold_put_union {X V} (f : X → option (list N * V)) (xs : list X)
    (m0 : gmap (list N) V) :
  fold_left (λ m x, put_entry m (f x)) xs m0
  = (fold_left (λ m x, put_entry m (f x)) xs (∅ : gmap (list N) V)) ∪ m0.
Proof.
  induction xs as [|x xs IH] using rev_ind.
  - simpl. by rewrite (left_id_L ∅ (∪)).
  - rewrite !fold_left_app. cbn [fold_left]. rewrite IH.
    destruct (f x) as [[k v]|]; [|done]. cbn [put_entry].
    by rewrite insert_union_l.
Qed.

Lemma digits_not_in c a :
  is_digit c = false → forallb is_digit a = true → c ∉ a.
Proof.
  intros Hc Ha Hin. rewrite forallb_forall in Ha.
  apply list_elem_of_In, Ha in Hin. congruence.
Qed.

End SplitFacts.

(** X11.  A text of white space only (the empty text included) gives an
    empty mapping, from [parseNumstat] and from [parseDiff]. *)
Theorem parse_blank text :
  forallb is_whitespace text = true →
  parseNumstat text = ∅ ∧ parseDiff text = ∅.
Proof.
  intros H%trim_empty. unfold parseNumstat, parseDiff. by rewrite H.
Qed.

Lemma parse_blank_witness :
  forallb is_whitespace (line_sep [js "   "; js ""; js "  "]) = true ∧
  parseNumstat (line_sep [js "   "; js ""; js "  "]) = ∅ ∧
  parseDiff (line_sep [js "   "; js ""; js "  "]) = ∅.
Proof.
  assert (forallb is_whitespace (line_sep [js "   "; js ""; js "  "]) = true)
    as H by (vm_compute; reflexivity).
  split; [exact H|]. exact (parse_blank _ H).
Defined.

(** X12.  Parsing two numstat texts put one after the other, a line feed
    between them, gives the union of the two results in which the second
    text wins on the paths both have. *)
Theorem parseNumstat_app t1 t2 :
  parseNumstat (t1 ++ LF :: t2) = parseNumstat t2 ∪ parseNumstat t1.
Proof.
  rewrite !parseNumstat_fold, split_app_sep, fold_left_app.
  apply fold_put_union.
Qed.

(** One row, in the exact integers of the embedding. *)
Lemma numstat_single_row a d p :
  is_number a → is_number d → ¬ (decimal a = 0 ∧ decimal d = 0) → LF ∉ p →
  parseNumstat (a ++ TAB :: d ++ TAB :: p)
  = {[ normalizePath p := {| added := decimal a; deleted := decimal d |} ]}.
Proof.
  intros Ha Hd Hz Hp.
  assert (∀ c x, is_digit c = false → is_number x → c ∉ x) as Hnot.
  { intros c x Hc [_ Hx]. by apply digits_not_in. }
  rewrite parseNumstat_fold, split_none.
  2:{ rewrite !not_elem_of_app, !not_elem_of_cons, !not_elem_of_app,
        !not_elem_of_cons.
      repeat split; try done; by apply Hnot. }
  cbn [fold_left]. unfold row_entry.
  rewrite !split_app_sep, !split_none by by apply Hnot.
  cbn [app].
  destruct (split_cons_inv TAB p) as (f & fs & E).
  pose proof (join_split TAB p) as Hj. rewrite E in *.
  assert (str_eqb a [MINUS] = false ∧ str_eqb d [MINUS] = false) as [-> ->].
  { split; apply str_eqb_neq; intros ->.
    - by destruct Ha as [_ Ha].
    - by destruct Hd as [_ Hd]. }
  rewrite (parseInt_number a Ha), (parseInt_number d Hd), Hj. cbn [orb].
  destruct ((decimal a =? 0) && (decimal d =? 0)) eqn:Hzz; [|done].
  apply andb_true_iff in Hzz as [?%Z.eqb_eq ?%Z.eqb_eq]. by destruct Hz.
Qed.

(** X13.  A row [<added> TAB <deleted> TAB <path>] of two numbers of at
    most 2^53 - 1 that are not both zero gives one entry, under the
    normalized path, with these counts; the path is taken whole, tabs
    included. *)
Theorem parseNumstat_row a d p :
  is_number a → is_number d → safe_number a → safe_number d →
  ¬ (decimal a = 0 ∧ decimal d = 0) → LF ∉ p →
  parseNumstat (a ++ TAB :: d ++ TAB :: p)
  = {[ normalizePath p := {| added := decimal a; deleted := decimal d |} ]}.
Proof.
  intros Ha Hd _ _ Hz Hp. by apply numstat_single_row.
Qed.

Lemma parseNumstat_row_witness :
  is_number (js "10") ∧ is_number (js "5") ∧
  safe_number (js "10") ∧ safe_number (js "5") ∧
  ¬ (decimal (js "10") = 0 ∧ decimal (js "5") = 0) ∧
  (LF ∉ js "a" ++ TAB :: js "b.ts") ∧
  parseNumstat (js "10" ++ TAB :: js "5" ++ TAB :: js "a" ++ TAB :: js "b.ts")
  = {[ normalizePath (js "a" ++ TAB :: js "b.ts")
       := {| added := decimal (js "10"); deleted := decimal (js "5") |} ]}.
Proof.
  assert (is_number (js "10")) as H1 by (by split).
  assert (is_number (js "5")) as H2 by (by split).
  assert (safe_number (js "10")) as S1 by solve_safe.
  assert (safe_number (js "5")) as S2 by solve_safe.
  assert (¬ (decimal (js "10") = 0 ∧ decimal (js "5") = 0)) as H3
    by (by intros [? _]).
  assert (LF ∉ js "a" ++ TAB :: js "b.ts") as H4.
  { intros Hin. apply list_elem_of_In in Hin. vm_compute in Hin.
    repeat (destruct Hin as [Hin|Hin]; [discriminate Hin|]). exact Hin. }
  split; [exact H1|]. split; [exact H2|]. split; [exact S1|].
  split; [exact S2|]. split; [exact H3|]. split; [exact H4|].
  exact (parseNumstat_row _ _ _ H1 H2 S1 S2 H3 H4).
Defined.

(** X14.  Every key of the mapping [parseNumstat] returns is a normalized
    path: it has no backslash in it. *)
Theorem parseNumstat_keys text p v :
  parseNumstat text !! p = Some v → BACKSLASH ∉ p.
Proof.
  intros (_ & row & _ & _ & (a & d & rest & _ & _ & _ & _ & _ & _ & _ & ->)
          & _)%parseNumstat_lookup.
  apply normalizePath_backslash_free.
Qed.

Lemma parseNumstat_keys_witness :
  parseNumstat (tab_sep [js "1"; js "0"; js "src\a.ts"]) !! js "src/a.ts"
  = Some (mkStats 1 0) ∧
  (BACKSLASH ∉ js "src/a.ts").
Proof.
  assert (parseNumstat (tab_sep [js "1"; js "0"; js "src\a.ts"])
            !! js "src/a.ts" = Some (mkStats 1 0)) as H
    by (vm_compute; reflexivity).
  split; [exact H|]. exact (parseNumstat_keys _ _ _ H).
Defined.

(* ===================================================================== *)
(** * Further properties: unified diffs *)
(* ===================================================================== *)

Section UnifiedDiffMore.

(** The guard on the whole text apart, [parseDiff] is its loop. *)
Lemma parseDiff_run text :
  parseDiff text
  = save_file (fold_left diff_line (split LF text) diff_init).
Proof.
  rewrite parseDiff_sections, run_sections. f_equal.
  unfold diff_init. rewrite run_body by apply body_prefix_no_header.
  by destruct (existsb _ _).
Qed.

Lemma diff_line_content st l : is_content_line l = true → diff_line st l = st.
Proof.
  unfold is_content_line, is_file_header, is_binary_marker, is_hunk_line.
  intros [[H1%negb_true_iff H2%negb_true_iff]%andb_true_iff
          H3%negb_true_iff]%andb_true_iff.
  unfold diff_line. by rewrite H1, H2, H3.
Qed.

Lemma body_prefix_app ls1 ls2 :
  match ls2 with l :: _ => is_file_header l = true | [] => True end →
  body_prefix (ls1 ++ ls2) = body_prefix ls1.
Proof.
  intros H2. unfold body_prefix. induction ls1 as [|l ls1 IH]; simpl.
  - destruct ls2 as [|l2 ls2]; [done|]. simpl. by rewrite H2.
  - by rewrite IH.
Qed.

Lemma sections_app ls1 ls2 :
  match ls2 with l :: _ => is_file_header l = true | [] => True end →
  sections (ls1 ++ ls2) = sections ls1 ++ sections ls2.
Proof.
  intros H2. induction ls1 as [|l ls1 IH]; [done|].
  simpl. rewrite IH, body_prefix_app by done.
  by destruct (is_file_header l).
Qed.

(** The first line of a text starts as the text does. *)
Lemma first_line_prefix p t :
  LF ∉ p → startsWith p t = true →
  ∃ l rest, split LF t = l :: rest ∧ startsWith p l = true.
Proof.
  intros Hp Ht. unfold startsWith in Ht.
  destruct (stripPrefix p t) as [t'|] eqn:E; [|done].
  apply stripPrefix_Some in E as ->. clear Ht.
  destruct (split_cons_inv LF t') as (f & fs & Hf).
  exists (p ++ f), fs. split; [|apply startsWith_app].
  induction p as [|c p IH]; [done|].
  apply not_elem_of_cons in Hp as [Hc Hp]. simpl. rewrite (IH Hp).
  destruct (N.eqb_spec c LF); congruence.
Qed.

Lemma header_path_normalized l p : header_path l = Some p → BACKSLASH ∉ p.
Proof.
  unfold header_path. destruct (exec header_re l) as [m|]; [|done].
  destruct (m 1%nat) as [g|]; [|done]. intros [= <-].
  apply normalizePath_backslash_free.
Qed.

End UnifiedDiffMore.

(** X15.  Every entry of the mapping [parseDiff] returns is a file diff
    whose [path] is its key and whose hunk list is not empty; the key is
    a non-empty string with no backslash in it. *)
Theorem parseDiff_entry_invariant text p fd :
  parseDiff text !! p = Some fd →
  path fd = p ∧ hunks fd ≠ [] ∧ p ≠ [] ∧ BACKSLASH ∉ p.
Proof.
  intros (_ & s & _ & _ & Hs & _)%parseDiff_lookup.
  apply section_entry_Some in Hs as (Hp & Hne & _ & Hhs & ->).
  repeat split; try done. by apply (header_path_normalized (fst s)).
Qed.

Lemma parseDiff_entry_invariant_witness :
  parseDiff diff_two_files !! js "src/a.ts"
  = Some (mkFileDiff (js "src/a.ts") [mkHunk 1 1 1 2]) ∧
  (path (mkFileDiff (js "src/a.ts") [mkHunk 1 1 1 2]) = js "src/a.ts" ∧
   hunks (mkFileDiff (js "src/a.ts") [mkHunk 1 1 1 2]) ≠ [] ∧
   js "src/a.ts" ≠ [] ∧ (BACKSLASH ∉ js "src/a.ts")).
Proof.
  assert (parseDiff diff_two_files !! js "src/a.ts"
          = Some (mkFileDiff (js "src/a.ts") [mkHunk 1 1 1 2])) as H
    by (vm_compute; reflexivity).
  split; [exact H|]. exact (parseDiff_entry_invariant _ _ _ H).
Defined.

(** X16.  Parsing two diff texts put one after the other, a line feed
    between them, when the second starts with a file header, gives the
    union of the two results in which the second text wins on the paths
    both have. *)
Theorem parseDiff_app t1 t2 :
  startsWith (js "diff --git ") t2 = true →
  parseDiff (t1 ++ LF :: t2) = parseDiff t2 ∪ parseDiff t1.
Proof.
  intros H2. rewrite !parseDiff_sections, split_app_sep.
  rewrite sections_app, fold_left_app; [apply fold_put_union|].
  destruct (first_line_prefix (js "diff --git ") t2) as (l & rest & -> & Hl);
    [|done|done].
  intros Hin. apply list_elem_of_In in Hin. vm_compute in Hin.
  repeat (destruct Hin as [Hin|Hin]; [discriminate Hin|]). exact Hin.
Qed.

Lemma parseDiff_app_witness :
  startsWith (js "diff --git ")
    (line_sep [js "diff --git a/y b/y"; js "@@ -2 +2 @@"]) = true ∧
  parseDiff (line_sep [js "diff --git a/x b/x"; js "@@ -1 +1 @@"]
             ++ LF :: line_sep [js "diff --git a/y b/y"; js "@@ -2 +2 @@"])
  = parseDiff (line_sep [js "diff --git a/y b/y"; js "@@ -2 +2 @@"])
    ∪ parseDiff (line_sep [js "diff --git a/x b/x"; js "@@ -1 +1 @@"]).
Proof.
  assert (startsWith (js "diff --git ")
            (line_sep [js "diff --git a/y b/y"; js "@@ -2 +2 @@"]) = true)
    as H by (vm_compute; reflexivity).
  split; [exact H|]. exact (parseDiff_app _ _ H).
Defined.

(** X17.  [parseDiff] does not read content: taking out of the text a
    line that is no file header, no binary marker and no hunk line leaves
    the result as it is. *)
Theorem parseDiff_content_line text text' l1 l l2 :
  split LF text = l1 ++ l :: l2 →
  split LF text' = l1 ++ l2 →
  is_content_line l = true →
  parseDiff text = parseDiff text'.
Proof.
  intros E E' Hl. rewrite !parseDiff_run, E, E', !fold_left_app.
  cbn [fold_left]. by rewrite diff_line_content.
Qed.

Lemma parseDiff_content_line_witness :
  split LF (line_sep [js "diff --git a/x b/x"; js "+++ b/x"; js "@@ -1 +1 @@"])
  = [js "diff --git a/x b/x"] ++ js "+++ b/x" :: [js "@@ -1 +1 @@"] ∧
  split LF (line_sep [js "diff --git a/x b/x"; js "@@ -1 +1 @@"])
  = [js "diff --git a/x b/x"] ++ [js "@@ -1 +1 @@"] ∧
  is_content_line (js "+++ b/x") = true ∧
  parseDiff (line_sep [js "diff --git a/x b/x"; js "+++ b/x"; js "@@ -1 +1 @@"])
  = parseDiff (line_sep [js "diff --git a/x b/x"; js "@@ -1 +1 @@"]).
Proof.
  assert (split LF (line_sep [js "diff --git a/x b/x"; js "+++ b/x";
                              js "@@ -1 +1 @@"])
          = [js "diff --git a/x b/x"] ++ js "+++ b/x" :: [js "@@ -1 +1 @@"])
    as H1 by (vm_compute; reflexivity).
  assert (split LF (line_sep [js "diff --git a/x b/x"; js "@@ -1 +1 @@"])
          = [js "diff --git a/x b/x"] ++ [js "@@ -1 +1 @@"])
    as H2 by (vm_compute; reflexivity).
  assert (is_content_line (js "+++ b/x") = true) as H3
    by (vm_compute; reflexivity).
  split; [exact H1|]. split; [exact H2|]. split; [exact H3|].
  exact (parseDiff_content_line _ _ _ _ _ H1 H2 H3).
Defined.

(** X18.  Hunk lines outside of a file section are not read: a text with
    no file header line gives an empty mapping. *)
Theorem parseDiff_no_header text :
  Forall (λ l, is_file_header l = false) (split LF text) →
  parseDiff text = ∅.
Proof.
  intros H. by rewrite parseDiff_sections, sections_no_header.
Qed.

Lemma parseDiff_no_header_witness :
  Forall (λ l, is_file_header l = false)
    (split LF (line_sep [js "@@ -1 +1 @@"; js "+x"])) ∧
  parseDiff (line_sep [js "@@ -1 +1 @@"; js "+x"]) = ∅.
Proof.
  assert (Forall (λ l, is_file_header l = false)
            (split LF (line_sep [js "@@ -1 +1 @@"; js "+x"]))) as H.
  { change (split LF (line_sep [js "@@ -1 +1 @@"; js "+x"]))
      with [js "@@ -1 +1 @@"; js "+x"].
    repeat constructor. }
  split; [exact H|]. exact (parseDiff_no_header _ H).
Defined.

Section HeaderPath.

Context {A : Type}.

(** No tail of the string is accepted: the loop fails. *)
Lemma plus_loop_fail cls (k : list N → option A) s :
  (∀ s1 s2, s = s1 ++ s2 → s1 ≠ [] → k s2 = None) →
  plus_loop cls k s = None.
Proof.
  induction s as [|c t IH]; intros Hk; [done|]. simpl.
  destruct (cls c); [|done].
  rewrite IH.
  - by apply (Hk [c] t).
  - intros s1 s2 -> Hne. by apply (Hk (c :: s1) s2).
Qed.

(** The loop gives back to the last tail the continuation accepts. *)
Lemma plus_loop_last cls (k : list N → option A) a s x :
  a ≠ [] → forallb cls a = true →
  (∀ s1 s2, s = s1 ++ s2 → s1 ≠ [] → k s2 = None) →
  k s = Some x →
  plus_loop cls k (a ++ s) = Some x.
Proof.
  intros Hne Ha Hs Hk. induction a as [|c a IH]; [done|].
  simpl in Ha. apply andb_true_iff in Ha as [Hc Ha].
  simpl. rewrite Hc. destruct a as [|c' a].
  - simpl. by rewrite plus_loop_fail.
  - by rewrite IH.
Qed.

End HeaderPath.

(** The destination of a file header line. *)
Lemma header_path_new old new :
  old ≠ [] → forallb is_dot old = true →
  new ≠ [] → forallb is_dot new = true → 32%N ∉ new →
  header_path (js "diff --git a/" ++ old ++ js " b/" ++ new)
  = Some (normalizePath new).
Proof.
  intros Ho1 Ho2 Hn1 Hn2 Hsp. unfold header_path.
  assert (exec header_re (js "diff --git a/" ++ old ++ js " b/" ++ new)
          = Some (set_capture 1 new no_captures)) as ->; [|done].
  apply exec_here. unfold match_here, header_re. open_seq.
  rewrite rmatch_lit_app.
  change (rmatch (Plus ?cls) ?k ?s ?m)
    with (plus_loop cls (λ s', k s' m) s).
  apply plus_loop_last; try done; cbn beta.
  - intros s1 s2 E Hs1.
    assert (32%N ∉ s2) as Hs2.
    { destruct s1 as [|c s1]; [done|].
      assert (js " b/" = [32; 98; 47]%N) as Ejs by reflexivity.
      rewrite Ejs in E. cbn [app] in E. injection E as _ E.
      intros Hin.
      assert (32%N ∈ 98%N :: 47%N :: new) as Hbad.
      { rewrite E. apply elem_of_app. by right. }
      apply elem_of_cons in Hbad as [Hbad|Hbad]; [discriminate Hbad|].
      apply elem_of_cons in Hbad as [Hbad|Hbad]; [discriminate Hbad|].
      done. }
    change (rmatch (Lit ?l) ?k ?s ?m)
      with (match stripPrefix l s with Some s' => k s' m | None => None end).
    destruct s2 as [|c s2]; [done|].
    apply not_elem_of_cons in Hs2 as [Hc _].
    change (js " b/") with (32%N :: js "b/"). cbn [stripPrefix].
    destruct (N.eqb_spec 32 c); [congruence|done].
  - rewrite rmatch_lit_app.
    rewrite <- (app_nil_r new) at 1.
    by apply (rmatch_group_plus_greedy 1 is_dot _ new []).
Qed.

(** X19.  On a file header line [diff --git a/<old> b/<new>] whose
    [<new>] has no space and no line terminator in it, the current file
    becomes the normalized [<new>]. *)
Theorem header_path_destination old new :
  old ≠ [] → forallb is_dot old = true →
  new ≠ [] → forallb is_dot new = true → 32%N ∉ new →
  header_path (js "diff --git a/" ++ old ++ js " b/" ++ new)
  = Some (normalizePath new).
Proof. exact (header_path_new old new). Qed.

Lemma header_path_destination_witness :
  js "src/foo.ts" ≠ [] ∧ forallb is_dot (js "src/foo.ts") = true ∧
  js "src/foo.ts" ≠ [] ∧ forallb is_dot (js "src/foo.ts") = true ∧
  (32%N ∉ js "src/foo.ts") ∧
  header_path (js "diff --git a/" ++ js "src/foo.ts" ++ js " b/"
               ++ js "src/foo.ts")
  = Some (normalizePath (js "src/foo.ts")).
Proof.
  assert (js "src/foo.ts" ≠ []) as H1 by done.
  assert (forallb is_dot (js "src/foo.ts") = true) as H2
    by (vm_compute; reflexivity).
  assert (32%N ∉ js "src/foo.ts") as H3.
  { intros Hin. apply list_elem_of_In in Hin. vm_compute in Hin.
    repeat (destruct Hin as [Hin|Hin]; [discriminate Hin|]). exact Hin. }
  split; [exact H1|]. split; [exact H2|]. split; [exact H1|].
  split; [exact H2|]. split; [exact H3|].
  exact (header_path_destination _ _ H1 H2 H1 H2 H3).
Defined.

(* ===================================================================== *)
(** * Further properties: annotating definitions *)
(* ===================================================================== *)

(** X20.  Annotating twice with the same file diff is annotating once:
    the classifier reads only [line] and [endLine], which the annotation
    leaves as they are. *)
Theorem applyDiffToDefinitions_idempotent defs fileDiff :
  applyDiffToDefinitions (applyDiffToDefinitions defs fileDiff) fileDiff
  = applyDiffToDefinitions defs fileDiff.
Proof.
  unfold applyDiffToDefinitions. destruct fileDiff as [fd|]; [|done].
  destruct (length (hunks fd) =? 0)%nat; [done|].
  rewrite List.map_map. apply List.map_ext. intros def.
  destruct (calculateDefinitionDiff def (hunks fd)) as [d|] eqn:E.
  - change (calculateDefinitionDiff (with_diff def d) (hunks fd))
      with (calculateDefinitionDiff def (hunks fd)).
    by rewrite E.
  - by rewrite E.
Qed.

(** X21.  When the git command fails, [getAllDiffData] does not fail: a
    failed numstat command gives empty file stats, a failed diff command
    gives empty file diffs, so that [applyDiffToDefinitions] leaves the
    definitions of every file as they are, and each failure writes its
    warning. *)
Theorem getAllDiffData_git_failure execSync dir :
  (∀ msg, execSync numstat_cmd dir = inr msg →
     fileStats (getAllDiffData execSync dir).1 = ∅ ∧
     js "Warning: git diff failed: " ++ msg ∈ (getAllDiffData execSync dir).2) ∧
  (∀ msg, execSync unified_cmd dir = inr msg →
     fileDiffs (getAllDiffData execSync dir).1 = ∅ ∧
     js "Warning: git diff failed: " ++ msg ∈ (getAllDiffData execSync dir).2 ∧
     ∀ defs p,
       applyDiffToDefinitions defs
         (fileDiffs (getAllDiffData execSync dir).1 !! p) = defs).
Proof.
  assert (js "git diff " ++ GIT_DIFF_OPTIONS ++ js " --numstat HEAD"
          = numstat_cmd) as E1 by (vm_compute; reflexivity).
  assert (js "git diff " ++ GIT_DIFF_OPTIONS ++ js " --unified=0 HEAD"
          = unified_cmd) as E2 by (vm_compute; reflexivity).
  unfold getAllDiffData, getFileStats, getHunkDiff, safeExec.
  rewrite E1, E2. split.
  - intros msg ->. destruct (execSync unified_cmd dir); cbn [fst snd fileStats].
    + split; [done|]. by left.
    + split; [done|]. by left.
  - intros msg ->.
    destruct (execSync numstat_cmd dir); cbn [fst snd fileDiffs app].
    + split; [done|]. split; [by left|]. intros defs p.
      change (parseDiff []) with (∅ : gmap (list N) FileDiff).
      by rewrite lookup_empty.
    + split; [done|]. split; [right; by left|]. intros defs p.
      change (parseDiff []) with (∅ : gmap (list N) FileDiff).
      by rewrite lookup_empty.
Qed.

Example getAllDiffData_failing_git msg dir :
  getAllDiffData (failing_git msg) dir
  = ({| fileStats := ∅; fileDiffs := ∅ |},
     [js "Warning: git diff failed: " ++ msg;
      js "Warning: git diff failed: " ++ msg]).
Proof. reflexivity. Qed.

(* ===================================================================== *)
(** * Further properties: pure deletions and whole additions *)
(* ===================================================================== *)

(** X22.  Within the exact range, hunks that only delete
    ([newCount = 0]) never count as added lines: a result for them has
    [added = 0] and status "updated", and a hunk's [oldCount] is counted
    exactly when it is positive and [line < newStart <= endLine]; a
    deletion anchored at or before the definition's first line is not
    counted. *)
Theorem calculateDefinitionDiff_pure_deletions def hs dd :
  safe_lines def → safe_hunks hs →
  Forall (λ h, newCount h = 0) hs →
  calculateDefinitionDiff def hs = Some dd →
  dd_added dd = 0 ∧ status dd = StatusUpdated ∧
  dd_deleted dd
  = sumZ (oldCount <$>
          List.filter (λ h, (0 <? oldCount h) && (line def <? newStart h)
                            && (newStart h <=? endLine def)) hs).
Proof.
  intros _ _ Hall. rewrite calculateDefinitionDiff_sums.
  assert (added_sum def hs = 0
          ∧ deleted_sum def hs
            = sumZ (oldCount <$>
                    List.filter (λ h, (0 <? oldCount h)
                                      && (line def <? newStart h)
                                      && (newStart h <=? endLine def)) hs))
    as [Ha Hd].
  { induction Hall as [|h hs Hh _ [IH1 IH2]]; [done|].
    rewrite added_sum_cons, deleted_sum_cons, IH1, IH2.
    rewrite intersection_length_eq, Hh. split; [lia|].
    cbn [List.filter]. unfold touches. rewrite Hh.
    destruct (Z.ltb_spec 0 (oldCount h)); cbn [andb]; [|lia].
    destruct (Z.ltb_spec (line def) (newStart h)),
             (Z.leb_spec (newStart h) (endLine def)),
             (Z.leb_spec (line def) (newStart h + 0 - 1));
      cbn [andb]; rewrite ?fmap_cons, ?sumZ_cons; lia. }
  rewrite Ha. cbn [Z.eqb andb].
  destruct (Z.eqb_spec (deleted_sum def hs) 0) as [|Hnz]; [done|].
  intros [= <-]. cbn [dd_added dd_deleted status].
  by rewrite andb_false_r.
Qed.

Lemma calculateDefinitionDiff_pure_deletions_witness :
  safe_lines (makeDef 10 20) ∧ safe_hunks [mkHunk 12 3 11 0] ∧
  Forall (λ h, newCount h = 0) [mkHunk 12 3 11 0] ∧
  calculateDefinitionDiff (makeDef 10 20) [mkHunk 12 3 11 0]
  = Some (mkDefDiff StatusUpdated 0 3) ∧
  dd_added (mkDefDiff StatusUpdated 0 3) = 0 ∧
  status (mkDefDiff StatusUpdated 0 3) = StatusUpdated ∧
  dd_deleted (mkDefDiff StatusUpdated 0 3)
  = sumZ (oldCount <$>
          List.filter (λ h, (0 <? oldCount h)
                            && (line (makeDef 10 20) <? newStart h)
                            && (newStart h <=? endLine (makeDef 10 20)))
            [mkHunk 12 3 11 0]).
Proof.
  assert (Forall (λ h, newCount h = 0) [mkHunk 12 3 11 0]) as H1
    by (by repeat constructor).
  assert (calculateDefinitionDiff (makeDef 10 20) [mkHunk 12 3 11 0]
          = Some (mkDefDiff StatusUpdated 0 3)) as H2 by reflexivity.
  assert (safe_lines (makeDef 10 20)) as Hl by solve_safe.
  assert (safe_hunks [mkHunk 12 3 11 0]) as Hh by solve_safe.
  split; [exact Hl|]. split; [exact Hh|].
  split; [exact H1|]. split; [exact H2|].
  exact (calculateDefinitionDiff_pure_deletions _ _ _ Hl Hh H1 H2).
Defined.

(** X23.  Within the exact range, a single hunk that deletes nothing
    and whose new span covers the whole definition makes the definition
    "added", with as many added lines as the definition has: so is every
    definition of a new file. *)
Theorem calculateDefinitionDiff_covered def h :
  line def ≤ endLine def → safe_lines def → safe_hunks [h] →
  oldCount h = 0 →
  newStart h ≤ line def →
  endLine def ≤ newStart h + newCount h - 1 →
  calculateDefinitionDiff def [h]
  = Some {| status := StatusAdded;
            dd_added := endLine def - line def + 1;
            dd_deleted := 0 |}.
Proof.
  intros Hle _ _ Ho Hs He. rewrite calculateDefinitionDiff_sums.
  assert (added_sum def [h] = endLine def - line def + 1) as ->.
  { rewrite added_sum_cons, intersection_length_eq.
    change (added_sum def []) with 0. lia. }
  assert (deleted_sum def [h] = 0) as ->.
  { rewrite deleted_sum_cons, Ho. done. }
  rewrite Z.leb_refl. cbn [Z.eqb andb].
  destruct (Z.eqb_spec (endLine def - line def + 1) 0); [lia|done].
Qed.

Lemma calculateDefinitionDiff_covered_witness :
  line (makeDef 3 7) ≤ endLine (makeDef 3 7) ∧
  safe_lines (makeDef 3 7) ∧ safe_hunks [mkHunk 0 0 1 40] ∧
  oldCount (mkHunk 0 0 1 40) = 0 ∧
  newStart (mkHunk 0 0 1 40) ≤ line (makeDef 3 7) ∧
  endLine (makeDef 3 7)
  ≤ newStart (mkHunk 0 0 1 40) + newCount (mkHunk 0 0 1 40) - 1 ∧
  calculateDefinitionDiff (makeDef 3 7) [mkHunk 0 0 1 40]
  = Some {| status := StatusAdded;
            dd_added := endLine (makeDef 3 7) - line (makeDef 3 7) + 1;
            dd_deleted := 0 |}.
Proof.
  assert (line (makeDef 3 7) ≤ endLine (makeDef 3 7)) as H1 by (simpl; lia).
  assert (oldCount (mkHunk 0 0 1 40) = 0) as H2 by reflexivity.
  assert (newStart (mkHunk 0 0 1 40) ≤ line (makeDef 3 7)) as H3
    by (simpl; lia).
  assert (endLine (makeDef 3 7)
          ≤ newStart (mkHunk 0 0 1 40) + newCount (mkHunk 0 0 1 40) - 1) as H4
    by (simpl; lia).
  assert (safe_lines (makeDef 3 7)) as Hl by solve_safe.
  assert (safe_hunks [mkHunk 0 0 1 40]) as Hh by solve_safe.
  split; [exact H1|]. split; [exact Hl|]. split; [exact Hh|].
  split; [exact H2|]. split; [exact H3|]. split; [exact H4|].
  exact (calculateDefinitionDiff_covered _ _ H1 Hl Hh H2 H3 H4).
Defined.

(* ===================================================================== *)
(** * What [parseInt] reads, and unquoted paths *)
(* ===================================================================== *)

Section CountFields.

Lemma takeWhile_dropWhile {A} (p : A → bool) s :
  takeWhile p s ++ dropWhile p s = s.
Proof.
  induction s as [|c s IH]; [done|]. simpl.
  destruct (p c); [|done]. simpl. by rewrite IH.
Qed.

Lemma dropWhile_app_all {A} (p : A → bool) a s :
  forallb p a = true → dropWhile p (a ++ s) = dropWhile p s.
Proof.
  induction a as [|c a IH]; [done|]. simpl.
  intros [Hc Ha]%andb_true_iff. rewrite Hc. by apply IH.
Qed.

Lemma number_head ds :
  is_number ds →
  ∃ c t, ds = c :: t ∧ is_digit c = true ∧ is_whitespace c = false
         ∧ (c =? MINUS)%N = false ∧ (c =? PLUS)%N = false.
Proof.
  intros [Hne Hds]. destruct ds as [|c t]; [done|].
  simpl in Hds. apply andb_true_iff in Hds as [Hc _].
  exists c, t. repeat split; try done.
  - by apply is_digit_not_whitespace.
  - unfold is_digit in Hc. apply andb_true_iff in Hc as [H1 H2].
    apply N.leb_le in H1, H2. apply N.eqb_neq. unfold MINUS. lia.
  - unfold is_digit in Hc. apply andb_true_iff in Hc as [H1 H2].
    apply N.leb_le in H1, H2. apply N.eqb_neq. unfold PLUS. lia.
Qed.

(** After white space and an optional sign, [parseInt] reads the digits
    up to the first character that is none. *)
Lemma parseInt_reads ws sg ds rest :
  forallb is_whitespace ws = true →
  sg = [] ∨ sg = [PLUS] ∨ sg = [MINUS] →
  is_number ds →
  (∀ c t, rest = c :: t → is_digit c = false) →
  parseInt (ws ++ sg ++ ds ++ rest)
  = Some (if str_eqb sg [MINUS] then - decimal ds else decimal ds).
Proof.
  intros Hws Hsg Hds Hrest.
  destruct (number_head ds Hds) as (c & t & -> & Hc & Hcw & Hcm & Hcp).
  destruct Hds as [_ Hall].
  assert (takeWhile is_digit ((c :: t) ++ rest) = c :: t) as Htake.
  { apply takeWhile_app_stop; [done|].
    destruct rest as [|x rest]; [done|]. by apply (Hrest x rest). }
  unfold parseInt, trimStart. rewrite dropWhile_app_all by done.
  destruct Hsg as [-> | [-> | ->]]; cbn [app dropWhile str_eqb].
  - rewrite Hcw, Hcm, Hcp. change (c :: t ++ rest) with ((c :: t) ++ rest).
    rewrite Htake. by destruct (decimal (c :: t)).
  - change (is_whitespace PLUS) with false. cbn iota.
    change (PLUS =? MINUS)%N with false. rewrite N.eqb_refl. cbn iota.
    change (c :: t ++ rest) with ((c :: t) ++ rest).
    rewrite Htake. by destruct (decimal (c :: t)).
  - change (is_whitespace MINUS) with false. cbn iota.
    rewrite N.eqb_refl. cbn iota.
    change (c :: t ++ rest) with ((c :: t) ++ rest).
    rewrite Htake. cbn [andb]. by destruct (decimal (c :: t)).
Qed.

(** [parseInt] gives [NaN] exactly on the fields that do not start, after
    white space and an optional sign, with a digit. *)
Lemma parseInt_NaN f : parseInt f = None ↔ ¬ starts_with_number f.
Proof.
  split.
  - intros Hnone (ws & sg & ds & rest & -> & Hws & Hsg & Hds).
    pose proof (takeWhile_dropWhile is_digit rest) as Er.
    pose proof (takeWhile_forallb is_digit rest) as Hr.
    rewrite <- Er, (app_assoc ds) in Hnone.
    rewrite (parseInt_reads ws sg (ds ++ takeWhile is_digit rest)) in Hnone;
      try done.
    + destruct Hds as [Hne Hall]. split; [by destruct ds|].
      by rewrite forallb_app, Hall, Hr.
    + intros c t E. clear -E.
      induction rest as [|x rest IH]; [done|]. simpl in E.
      destruct (is_digit x) eqn:Hx; [by apply IH|]. by injection E as <- _.
  - intros Hno. destruct (parseInt f) as [z|] eqn:E; [|done]. exfalso.
    apply Hno. unfold parseInt, trimStart in E.
    pose proof (takeWhile_dropWhile is_whitespace f) as Ef.
    pose proof (takeWhile_forallb is_whitespace f) as Hws.
    assert (∀ sg s2, dropWhile is_whitespace f = sg ++ s2 →
                     sg = [] ∨ sg = [PLUS] ∨ sg = [MINUS] →
                     takeWhile is_digit s2 ≠ [] → starts_with_number f)
      as Hbuild.
    { intros sg s2 Es Hsg Hne.
      exists (takeWhile is_whitespace f), sg, (takeWhile is_digit s2),
             (dropWhile is_digit s2).
      rewrite takeWhile_dropWhile, <- Es, Ef.
      repeat split; try done. apply takeWhile_forallb. }
    destruct (dropWhile is_whitespace f) as [|c r] eqn:Es; [done|].
    destruct (N.eqb_spec c MINUS) as [->|_].
    + apply (Hbuild [MINUS] r); [done|by right; right|].
      intros Hnil. by rewrite Hnil in E.
    + destruct (N.eqb_spec c PLUS) as [->|_].
      * apply (Hbuild [PLUS] r); [done|by right; left|].
        intros Hnil. by rewrite Hnil in E.
      * apply (Hbuild [] (c :: r)); [done|by left|].
        intros Hnil. by rewrite Hnil in E.
Qed.

Lemma normalizePath_unquoted p :
  is_quoted p = false → normalizePath p = replace1 BACKSLASH SLASH p.
Proof. unfold is_quoted, normalizePath. by intros ->. Qed.

End CountFields.

(* ===================================================================== *)
(** * The properties of the specification, continued *)
(* ===================================================================== *)

(** C1.  For every definition with [line <= endLine] and every hunk list
    in the exact range, the classifier's total [addedInDef] is the sum,
    over the hunks, of the length of the intersection of [line .. endLine]
    with the hunk's new span [newStart .. newStart+newCount-1], and its
    total [deletedInDef] is the sum of [oldCount] over the hunks with
    [oldCount > 0] whose new span touches the definition's span, the whole
    [oldCount] each time; [calculateDefinitionDiff] returns [null] when
    both sums are zero and the record that holds them otherwise. *)
Theorem calculateDefinitionDiff_totals def hs :
  line def ≤ endLine def → safe_lines def → safe_hunks hs →
  def_totals def hs = (added_sum def hs, deleted_sum def hs) ∧
  calculateDefinitionDiff def hs
  = if (added_sum def hs =? 0) && (deleted_sum def hs =? 0) then None
    else Some {| status :=
                   if (endLine def - line def + 1 <=? added_sum def hs)
                      && (deleted_sum def hs =? 0)
                   then StatusAdded else StatusUpdated;
                 dd_added := added_sum def hs;
                 dd_deleted := deleted_sum def hs |}.
Proof.
  intros _ _ _. split; [apply def_totals_sums|].
  apply calculateDefinitionDiff_sums.
Qed.

Lemma calculateDefinitionDiff_totals_witness :
  line (makeDef 10 15) ≤ endLine (makeDef 10 15) ∧
  safe_lines (makeDef 10 15) ∧ safe_hunks [mkHunk 5 0 10 6] ∧
  def_totals (makeDef 10 15) [mkHunk 5 0 10 6]
  = (added_sum (makeDef 10 15) [mkHunk 5 0 10 6],
     deleted_sum (makeDef 10 15) [mkHunk 5 0 10 6]) ∧
  calculateDefinitionDiff (makeDef 10 15) [mkHunk 5 0 10 6]
  = if (added_sum (makeDef 10 15) [mkHunk 5 0 10 6] =? 0)
       && (deleted_sum (makeDef 10 15) [mkHunk 5 0 10 6] =? 0) then None
    else Some {| status :=
                   if (endLine (makeDef 10 15) - line (makeDef 10 15) + 1
                       <=? added_sum (makeDef 10 15) [mkHunk 5 0 10 6])
                      && (deleted_sum (makeDef 10 15) [mkHunk 5 0 10 6] =? 0)
                   then StatusAdded else StatusUpdated;
                 dd_added := added_sum (makeDef 10 15) [mkHunk 5 0 10 6];
                 dd_deleted := deleted_sum (makeDef 10 15) [mkHunk 5 0 10 6] |}.
Proof.
  assert (line (makeDef 10 15) ≤ endLine (makeDef 10 15)) as H1
    by (simpl; lia).
  assert (safe_lines (makeDef 10 15)) as Hl by solve_safe.
  assert (safe_hunks [mkHunk 5 0 10 6]) as Hh by solve_safe.
  split; [exact H1|]. split; [exact Hl|]. split; [exact Hh|].
  exact (calculateDefinitionDiff_totals _ _ H1 Hl Hh).
Defined.

(** C4, as the code has it.  Every hunk [parseHunkHeader] returns, and so
    every hunk of every file diff [parseDiff] stores, holds the values of
    the four digit runs of a header in the line, an omitted count being 1;
    when these are at most 2^53 - 1 the hunk consists of four
    non-negative integers.  Nothing makes [oldStart] or [newStart] at
    least 1: each may be 0, as the counts may. *)
Theorem parsed_hunk_nonneg :
  (∀ l h, parseHunkHeader l = Some h → safe_fields h →
     ∃ pre a ob c od rest,
       is_number a ∧ opt_number ob ∧ is_number c ∧ opt_number od ∧
       l = pre ++ hunk_header_text a ob c od ++ rest ∧
       h = header_hunk a ob c od) ∧
  (∀ l h, parseHunkHeader l = Some h → safe_fields h →
     0 ≤ oldStart h ∧ 0 ≤ oldCount h ∧ 0 ≤ newStart h ∧ 0 ≤ newCount h) ∧
  (∀ text p fd h,
     parseDiff text !! p = Some fd → h ∈ hunks fd → safe_fields h →
     0 ≤ oldStart h ∧ 0 ≤ oldCount h ∧ 0 ≤ newStart h ∧ 0 ≤ newCount h).
Proof.
  assert (∀ l h, parseHunkHeader l = Some h →
            0 ≤ oldStart h ∧ 0 ≤ oldCount h ∧ 0 ≤ newStart h ∧ 0 ≤ newCount h)
    as Hone.
  { intros l h (pre & a & ob & c & od & rest & Ha & Hob & Hc & Hod & _ & ->)
             %parseHunkHeader_Some.
    by apply header_hunk_nonneg. }
  split; [intros l h Hh _; by apply parseHunkHeader_Some|].
  split; [intros l h Hh _; by apply (Hone l)|].
  intros text p fd h (S1 & s & S2 & _ & Hs & _)%parseDiff_lookup Hh _.
  apply section_entry_Some in Hs as (_ & _ & _ & _ & ->).
  cbn [hunks] in Hh. unfold section_hunks in Hh.
  apply list_elem_of_omap in Hh as (l & _ & Hl). by apply (Hone l).
Qed.

(** C4 fails as stated: the header of a new file has [oldStart = 0], that
    of a deleted file has [newStart = 0], and the hunk reaches the file
    diff. *)
Lemma parsed_hunk_start_zero :
  parseHunkHeader (js "@@ -0,0 +1,3 @@") = Some (mkHunk 0 0 1 3) ∧
  oldStart (mkHunk 0 0 1 3) < 1 ∧
  parseHunkHeader (js "@@ -1,3 +0,0 @@") = Some (mkHunk 1 3 0 0) ∧
  newStart (mkHunk 1 3 0 0) < 1 ∧
  parseDiff (line_sep [js "diff --git a/n b/n"; js "@@ -0,0 +1,3 @@"])
    !! js "n"
  = Some (mkFileDiff (js "n") [mkHunk 0 0 1 3]).
Proof. repeat split; vm_compute; reflexivity. Qed.

(** C8.  On every line that matches the grammar, with numbers of at most
    2^53 - 1, [parseHunkHeader] returns the four numbers of the header,
    an omitted [oldCount] or [newCount] being 1. *)
Theorem parseHunkHeader_grammar a ob c od rest :
  is_number a → opt_number ob → is_number c → opt_number od →
  safe_number a → safe_opt_number ob → safe_number c → safe_opt_number od →
  parseHunkHeader (hunk_header_text a ob c od ++ rest)
  = Some {| oldStart := decimal a; oldCount := count_value ob;
            newStart := decimal c; newCount := count_value od |}.
Proof.
  intros Ha Hob Hc Hod _ _ _ _.
  apply (parseHunkHeader_exec _ a ob c od); try done.
  by apply exec_here, match_here_hunk_header.
Qed.

(** In particular [parseHunkHeader("@@ -10 +12,7 @@")] is
    [{oldStart: 10, oldCount: 1, newStart: 12, newCount: 7}]. *)
Lemma parseHunkHeader_grammar_witness :
  is_number (js "10") ∧ opt_number None ∧
  is_number (js "12") ∧ opt_number (Some (js "7")) ∧
  safe_number (js "10") ∧ safe_opt_number None ∧
  safe_number (js "12") ∧ safe_opt_number (Some (js "7")) ∧
  parseHunkHeader (js "@@ -10 +12,7 @@") = Some (mkHunk 10 1 12 7).
Proof.
  assert (is_number (js "10")) as H10 by (by split).
  assert (is_number (js "12")) as H12 by (by split).
  assert (is_number (js "7")) as H7 by (by split).
  assert (safe_number (js "10")) as S10 by solve_safe.
  assert (safe_number (js "12")) as S12 by solve_safe.
  assert (safe_opt_number (Some (js "7"))) as S7 by solve_safe.
  split; [exact H10|]. split; [exact I|]. split; [exact H12|].
  split; [exact H7|]. split; [exact S10|]. split; [exact I|].
  split; [exact S12|]. split; [exact S7|].
  exact (parseHunkHeader_grammar (js "10") None (js "12") (Some (js "7")) []
           H10 I H12 H7 S10 I S12 S7).
Defined.

(** C5, as the code has it.  For every input text: a line where either
    count field is the literal [-], a line where [parseInt] gives no
    number for a count field, and a line where both counts are zero leave
    the mapping as it was.  [parseInt] gives no number exactly for a field
    that does not start, after white space and an optional sign, with a
    digit; otherwise it reads the digits up to the first character that is
    none, so that a field such as [12abc] counts as 12 and its row is kept.
    Every valid row is written under its normalized path, rejoined from
    the fields behind the counts; the result binds a path to the counts of
    the last valid row for that path (counts of at most 2^53 - 1 being
    the exact values), and of two rows for the same path the later one
    wins.  No key has a backslash in it, and a row of two numbers with an
    unquoted path is stored under that path with its backslashes turned
    into slashes. *)
Theorem parseNumstat_rows text :
  (∀ row a d rest stats,
     split TAB row = a :: d :: rest →
     a = [MINUS] ∨ d = [MINUS] ∨ parseInt a = None ∨ parseInt d = None ∨
     (parseInt a = Some 0 ∧ parseInt d = Some 0) →
     numstat_line stats row = stats) ∧
  (∀ row p v stats,
     valid_row row p v → numstat_line stats row = <[p := v]> stats) ∧
  (∀ p v, safe_stats v →
     (parseNumstat text !! p = Some v ↔
      ∃ l1 row l2, split LF text = l1 ++ row :: l2 ∧ valid_row row p v ∧
                   Forall (λ row', ∀ v', ¬ valid_row row' p v') l2)) ∧
  (∀ l1 r1 l2 r2 l3 p v1 v2,
     split LF text = l1 ++ r1 :: l2 ++ r2 :: l3 →
     valid_row r1 p v1 → valid_row r2 p v2 → safe_stats v2 →
     Forall (λ row', ∀ v', ¬ valid_row row' p v') l3 →
     parseNumstat text !! p = Some v2) ∧
  (∀ f, parseInt f = None ↔ ¬ starts_with_number f) ∧
  (∀ ws sg ds rest,
     forallb is_whitespace ws = true →
     sg = [] ∨ sg = [PLUS] ∨ sg = [MINUS] →
     is_number ds → safe_number ds →
     (∀ c t, rest = c :: t → is_digit c = false) →
     parseInt (ws ++ sg ++ ds ++ rest)
     = Some (if str_eqb sg [MINUS] then - decimal ds else decimal ds)) ∧
  (∀ p v, parseNumstat text !! p = Some v → BACKSLASH ∉ p) ∧
  (∀ a d q,
     is_number a → is_number d → safe_number a → safe_number d →
     ¬ (decimal a = 0 ∧ decimal d = 0) → LF ∉ q → is_quoted q = false →
     parseNumstat (a ++ TAB :: d ++ TAB :: q)
     = {[ replace1 BACKSLASH SLASH q
          := {| added := decimal a; deleted := decimal d |} ]}).
Proof.
  split; [|split; [|split; [|split; [|split; [|split; [|split]]]]]].
  - intros row a d rest stats Hf Hskip.
    rewrite numstat_line_entry.
    destruct (row_entry row) as [[p v]|] eqn:E; [|done].
    apply row_entry_valid in E
      as (a' & d' & rest' & Hf' & _ & Ha & Hd & Hpa & Hpd & Hz & _).
    rewrite Hf in Hf'. injection Hf' as <- <- <-.
    destruct Hskip as [?|[?|[?|[?|[? ?]]]]]; try congruence.
    destruct Hz. split; congruence.
  - intros row p v stats Hrow%row_entry_valid.
    by rewrite numstat_line_entry, Hrow.
  - intros p v _. apply parseNumstat_lookup.
  - intros l1 r1 l2 r2 l3 p v1 v2 E _ H2 _ Hl3.
    apply parseNumstat_lookup. exists (l1 ++ r1 :: l2), r2, l3.
    by rewrite <- app_assoc.
  - apply parseInt_NaN.
  - intros ws sg ds rest Hws Hsg Hds _ Hrest. by apply parseInt_reads.
  - intros p v (_ & row & _ & _ & (a & d & rest & _ & _ & _ & _ & _ & _ & _ & ->)
                & _)%parseNumstat_lookup.
    apply normalizePath_backslash_free.
  - intros a d q Ha Hd _ _ Hz Hq Hquoted.
    rewrite <- (normalizePath_unquoted q Hquoted).
    by apply numstat_single_row.
Qed.

(** C5 fails as stated: the count fields of this row are no base-10
    integers, and the row is not skipped. *)
Lemma parseNumstat_not_integers_kept :
  is_integer_text (js "12abc") = false ∧
  is_integer_text (js "1.5") = false ∧
  parseNumstat numstat_not_integers = {[ js "f" := mkStats 12 1 ]}.
Proof. repeat split; vm_compute; reflexivity. Qed.

(** C7, as the code has it.  For every input text no entry of the result
    has both [added] and [deleted] equal to zero; and an entry comes from
    a row, the last valid row for its path, such that [added >= 0] unless
    the [added] field of that row has a minus sign in it, and
    [deleted >= 0] unless its [deleted] field has one.  ([parseInt] reads
    a sign, so a count field [-5] gives the count -5.) *)
Theorem parseNumstat_counts text p v :
  parseNumstat text !! p = Some v →
  ¬ (added v = 0 ∧ deleted v = 0) ∧
  ∃ l1 row l2 a d rest,
    split LF text = l1 ++ row :: l2 ∧
    Forall (λ row', ∀ v', ¬ valid_row row' p v') l2 ∧
    split TAB row = a :: d :: rest ∧
    p = normalizePath (join TAB rest) ∧
    parseInt a = Some (added v) ∧ parseInt d = Some (deleted v) ∧
    (MINUS ∉ a → 0 ≤ added v) ∧ (MINUS ∉ d → 0 ≤ deleted v).
Proof.
  intros (l1 & row & l2 & E & (a & d & rest & Hf & _ & _ & _ & Ha & Hd & Hz & Hp)
          & Hl2)%parseNumstat_lookup.
  split; [done|]. exists l1, row, l2, a, d, rest.
  repeat split; try done.
  - intros Hm. by apply (parseInt_nonneg a).
  - intros Hm. by apply (parseInt_nonneg d).
Qed.

Lemma parseNumstat_counts_witness :
  parseNumstat numstat_with_binary !! js "src/code.ts"
  = Some (mkStats 10 5) ∧
  ¬ (added (mkStats 10 5) = 0 ∧ deleted (mkStats 10 5) = 0) ∧
  ∃ l1 row l2 a d rest,
    split LF numstat_with_binary = l1 ++ row :: l2 ∧
    Forall (λ row', ∀ v', ¬ valid_row row' (js "src/code.ts") v') l2 ∧
    split TAB row = a :: d :: rest ∧
    js "src/code.ts" = normalizePath (join TAB rest) ∧
    parseInt a = Some (added (mkStats 10 5)) ∧
    parseInt d = Some (deleted (mkStats 10 5)) ∧
    (MINUS ∉ a → 0 ≤ added (mkStats 10 5)) ∧
    (MINUS ∉ d → 0 ≤ deleted (mkStats 10 5)).
Proof.
  assert (parseNumstat numstat_with_binary !! js "src/code.ts"
          = Some (mkStats 10 5)) as H by (vm_compute; reflexivity).
  split; [exact H|].
  exact (parseNumstat_counts _ _ _ H).
Defined.

(** C7 fails as stated: a row with a signed count field gives an entry
    with a negative [added]. *)
Lemma parseNumstat_signed_count :
  parseNumstat numstat_signed !! js "f" = Some (mkStats (-5) 3) ∧
  added (mkStats (-5) 3) < 0.
Proof. split; vm_compute; reflexivity. Qed.



(** C10, as the code has it.  When the same normalized destination path,
    a non-empty string, heads two file sections of a unified-diff text
    and no section behind them, each of the two has at least one parsed
    hunk, and no binary-file marker stands in the later one, the result
    has exactly one entry for that path, and it holds the hunks of the
    later section only. *)
Theorem parseDiff_later_section_wins text S1 s1 S2 s2 S3 p :
  sections (split LF text) = S1 ++ s1 :: S2 ++ s2 :: S3 →
  header_path (fst s1) = Some p → header_path (fst s2) = Some p →
  p ≠ [] →
  section_hunks (snd s1) ≠ [] → section_hunks (snd s2) ≠ [] →
  existsb is_binary_marker (snd s2) = false →
  Forall (λ s, header_path (fst s) ≠ Some p) S3 →
  parseDiff text !! p
  = Some {| path := p; hunks := section_hunks (snd s2) |} ∧
  (∀ fd, (p, fd) ∈ map_to_list (parseDiff text)
         ↔ fd = {| path := p; hunks := section_hunks (snd s2) |}).
Proof.
  intros E _ Hp2 Hne _ Hh2 Hb2 H3.
  assert (parseDiff text !! p
          = Some {| path := p; hunks := section_hunks (snd s2) |}) as Hp.
  { apply parseDiff_lookup. exists (S1 ++ s1 :: S2), s2, S3.
    rewrite <- app_assoc. split; [done|].
    split; [by apply section_entry_Some|].
    eapply Forall_impl; [exact H3|]. intros s Hs fd Hfd.
    by apply section_entry_Some in Hfd as (Hfd & _). }
  split; [done|].
  intros fd. rewrite elem_of_map_to_list, Hp. split; congruence.
Qed.

Lemma parseDiff_later_section_wins_witness :
  sections (split LF diff_same_path_twice)
  = [] ++ (js "diff --git a/x b/x", [js "@@ -1 +1 @@"])
       :: [] ++ (js "diff --git a/x b/x", [js "@@ -2 +2 @@"]) :: [] ∧
  header_path (fst (js "diff --git a/x b/x", [js "@@ -1 +1 @@"]))
  = Some (js "x") ∧
  header_path (fst (js "diff --git a/x b/x", [js "@@ -2 +2 @@"]))
  = Some (js "x") ∧
  js "x" ≠ [] ∧
  section_hunks (snd (js "diff --git a/x b/x", [js "@@ -1 +1 @@"])) ≠ [] ∧
  section_hunks (snd (js "diff --git a/x b/x", [js "@@ -2 +2 @@"])) ≠ [] ∧
  existsb is_binary_marker
    (snd (js "diff --git a/x b/x", [js "@@ -2 +2 @@"])) = false ∧
  parseDiff diff_same_path_twice !! js "x"
  = Some {| path := js "x";
            hunks := section_hunks
                       (snd (js "diff --git a/x b/x", [js "@@ -2 +2 @@"])) |} ∧
  (∀ fd, (js "x", fd) ∈ map_to_list (parseDiff diff_same_path_twice)
         ↔ fd = {| path := js "x";
                   hunks := section_hunks
                              (snd (js "diff --git a/x b/x",
                                    [js "@@ -2 +2 @@"])) |}).
Proof.
  assert (sections (split LF diff_same_path_twice)
          = [] ++ (js "diff --git a/x b/x", [js "@@ -1 +1 @@"])
               :: [] ++ (js "diff --git a/x b/x", [js "@@ -2 +2 @@"]) :: [])
    as E by (vm_compute; reflexivity).
  assert (header_path (fst (js "diff --git a/x b/x", [js "@@ -1 +1 @@"]))
          = Some (js "x")) as P1 by (vm_compute; reflexivity).
  assert (header_path (fst (js "diff --git a/x b/x", [js "@@ -2 +2 @@"]))
          = Some (js "x")) as P2 by (vm_compute; reflexivity).
  assert (js "x" ≠ []) as Hx by done.
  assert (section_hunks (snd (js "diff --git a/x b/x", [js "@@ -1 +1 @@"]))
          ≠ []) as H1 by (vm_compute; discriminate).
  assert (section_hunks (snd (js "diff --git a/x b/x", [js "@@ -2 +2 @@"]))
          ≠ []) as H2 by (vm_compute; discriminate).
  assert (existsb is_binary_marker
            (snd (js "diff --git a/x b/x", [js "@@ -2 +2 @@"])) = false)
    as Hb by (vm_compute; reflexivity).
  split; [exact E|]. split; [exact P1|]. split; [exact P2|].
  split; [exact Hx|]. split; [exact H1|]. split; [exact H2|].
  split; [exact Hb|].
  exact (parseDiff_later_section_wins diff_same_path_twice
           [] _ [] _ [] (js "x") E P1 P2 Hx H1 H2 Hb (List.Forall_nil _)).
Defined.

(** C10 fails as stated: the same path heads both sections and a hunk is
    parsed in each, but a binary-file marker behind the hunk of the later
    section empties it; the entry holds the hunk of the earlier one.  And
    two sections headed by the empty path, a hunk in each, leave no entry
    at all. *)
Lemma parseDiff_later_binary_marker :
  sections (split LF diff_later_binary)
  = [(js "diff --git a/x b/x", [js "@@ -1 +1 @@"]);
     (js "diff --git a/x b/x",
      [js "@@ -2 +2 @@"; js "Binary files a/x and b/x differ"])] ∧
  header_path (js "diff --git a/x b/x") = Some (js "x") ∧
  section_hunks [js "@@ -1 +1 @@"] = [mkHunk 1 1 1 1] ∧
  section_hunks [js "@@ -2 +2 @@"; js "Binary files a/x and b/x differ"]
  = [mkHunk 2 1 2 1] ∧
  parseDiff diff_later_binary
  = {[ js "x" := mkFileDiff (js "x") [mkHunk 1 1 1 1] ]} ∧
  sections (split LF diff_empty_path_twice)
  = [(js "diff --git a/x b/" ++ [QUOTE; QUOTE], [js "@@ -1 +1 @@"]);
     (js "diff --git a/x b/" ++ [QUOTE; QUOTE], [js "@@ -2 +2 @@"])] ∧
  header_path (js "diff --git a/x b/" ++ [QUOTE; QUOTE]) = Some [] ∧
  parseDiff diff_empty_path_twice = ∅.
Proof. repeat split; vm_compute; reflexivity. Qed.
